(** * Contagion simulation: the model classes of [model.py]

A shallow embedding of [Point], [Cell] and [Model] and the properties
of the simulation engine.

Conventions of the embedding.
- A Python [float] is an IEEE-754 binary64 number: Rocq's primitive
  [float], with the kernel's operations and their specification in
  [FloatAxioms].
- A Python [int] is unbounded: [Z].
- A method that mutates [self] becomes a function returning the new
  object; a method mutating two objects returns both.
- [self.population] is a Python list of distinct [Cell] objects (the
  constructor creates one object per slot): a [list Cell.t] read with
  [!!] and written with [<[i:=c]>].
- The module [constants] is imported by [model.py] and its values are
  not fixed here: they are the fields of [Constants], a parameter of
  every definition that reads one of them. The ceiling 90 of
  [Cell.tick] is a literal of [model.py]. *)

From Stdlib Require Import ZArith Floats String.
From stdpp Require Import base tactics option list.

Local Open Scope Z_scope.

(** ** The imported constants *)

Record Constants := {
  VULNERABLE : Z;
  INFECTED : Z;
  IMMUNE : Z;
  CELL_RADIUS : float;
  BOUNDS_WIDTH : float;
  BOUNDS_HEIGHT : float;
  MAX_X : float;
  MIN_X : float;
  MAX_Y : float;
  MIN_Y : float
}.

(** Python's comparisons on floats. [a > b] is [b < a] in IEEE-754. *)
Definition float_gt (a b : float) : bool := PrimFloat.ltb b a.
Definition float_lt (a b : float) : bool := PrimFloat.ltb a b.
Definition float_le (a b : float) : bool := PrimFloat.leb a b.

(** ** class Point *)

Module Point.

Record t := mk { x : float; y : float }.

(** [Point.add]: a new Point, the coordinate-wise sum. *)
Definition add (self other : t) : t :=
  let x' := PrimFloat.add (x self) (x other) in
  let y' := PrimFloat.add (y self) (y other) in
  mk x' y'.

(** [Point.distance] *)
Definition distance (self other : t) : float :=
  let x_squared :=
    PrimFloat.mul (PrimFloat.sub (x self) (x other))
                  (PrimFloat.sub (x self) (x other)) in
  let y_squared :=
    PrimFloat.mul (PrimFloat.sub (y self) (y other))
                  (PrimFloat.sub (y self) (y other)) in
  let total := PrimFloat.add x_squared y_squared in
  PrimFloat.sqrt total.

End Point.

(** ** class Cell *)

Module Cell.

Record t := mk {
  location : Point.t;
  direction : Point.t;
  sickness : Z
}.

Definition set_location (p : Point.t) (self : t) : t :=
  mk p (direction self) (sickness self).
Definition set_direction (p : Point.t) (self : t) : t :=
  mk (location self) p (sickness self).
Definition set_sickness (s : Z) (self : t) : t :=
  mk (location self) (direction self) s.

Section WithConstants.
  Context (constants : Constants).

(** [Cell.__init__]: [sickness] is the class attribute, [VULNERABLE]. *)
Definition init (location direction : Point.t) : t :=
  mk location direction (VULNERABLE constants).

Definition contract_disease (self : t) : t :=
  set_sickness (INFECTED constants) self.

Definition immunize (self : t) : t :=
  set_sickness (IMMUNE constants) self.

Definition is_vulnerable (self : t) : bool :=
  sickness self =? VULNERABLE constants.

Definition is_infected (self : t) : bool :=
  sickness self >=? INFECTED constants.

Definition is_immune (self : t) : bool :=
  sickness self =? IMMUNE constants.

Definition color (self : t) : string :=
  if is_vulnerable self then "gray"%string
  else if is_immune self then "green"%string
  else "red"%string.

(** [Cell.tick]: move, then the two independent [if]s on [sickness]. *)
Definition tick (self : t) : t :=
  let self := set_location (Point.add (location self) (direction self)) self in
  let self := if sickness self >=? 90 then immunize self else self in
  if is_infected self then set_sickness (sickness self + 1) self else self.

(** [Cell.contact_with]: [self] and [other] after the call. *)
Definition contact_with (self other : t) : t * t :=
  if (is_vulnerable self && is_infected other)
     || (is_infected self && is_vulnerable other)
  then (contract_disease self, contract_disease other)
  else (self, other).

End WithConstants.

End Cell.

(** ** The environment: [random.random] and [math]

[random()] is modelled by the sequence of its successive results and
a counter of the draws made so far, threaded through the constructor.
[math.pi], [math.cos] and [math.sin] are library functions, taken as
they come. *)

Record Env := {
  pi : float;
  cos : float -> float;
  sin : float -> float;
  draws : nat -> float
}.

(** A computation that consumes random draws. *)
Definition Rand (A : Type) : Type := nat -> A * nat.

Definition rand_ret {A} (a : A) : Rand A := fun n => (a, n).
Definition rand_bind {A B} (m : Rand A) (k : A -> Rand B) : Rand B :=
  fun n => let '(a, n') := m n in k a n'.
Definition random (env : Env) : Rand float := fun n => (draws env n, S n).

Notation "x <-r m ;; k" := (rand_bind m (fun x => k))
  (at level 100, m at next level, right associativity).

(** Python's [range(lo, hi)] for indices that are known to be natural. *)
Definition range (lo hi : nat) : list nat := seq lo (hi - lo).

(** What a raising constructor produces instead of an object. *)
Inductive exn := ValueError (msg : string).

Inductive result (A : Type) :=
  | Return (a : A)
  | Raise (e : exn).
Arguments Return {A} a.
Arguments Raise {A} e.

(** ** class Model *)

Module Model.

Record t := mk {
  population : list Cell.t;
  time : Z;
  initial_infections : Z;
  initial_immunities : Z
}.

Definition set_population (p : list Cell.t) (self : t) : t :=
  mk p (time self) (initial_infections self) (initial_immunities self).
Definition set_time (n : Z) (self : t) : t :=
  mk (population self) n (initial_infections self) (initial_immunities self).

Section WithConstants.
  Context (constants : Constants).

(** [Model.random_location] *)
Definition random_location (env : Env) : Rand Point.t :=
  r1 <-r random env ;;
  let start_x :=
    PrimFloat.sub (PrimFloat.mul r1 (BOUNDS_WIDTH constants)) (MAX_X constants) in
  r2 <-r random env ;;
  let start_y :=
    PrimFloat.sub (PrimFloat.mul r2 (BOUNDS_HEIGHT constants)) (MAX_Y constants) in
  rand_ret (Point.mk start_x start_y).

(** [Model.random_direction] *)
Definition random_direction (env : Env) (speed : float) : Rand Point.t :=
  r <-r random env ;;
  let random_angle := PrimFloat.mul (PrimFloat.mul 2%float (pi env)) r in
  let dir_x := PrimFloat.mul (cos env random_angle) speed in
  let dir_y := PrimFloat.mul (sin env random_angle) speed in
  rand_ret (Point.mk dir_x dir_y).

(** The first loop of [Model.__init__]: [n] more Cells are appended. *)
Fixpoint create_cells (env : Env) (speed : float) (n : nat)
    (population : list Cell.t) : Rand (list Cell.t) :=
  match n with
  | O => rand_ret population
  | S n' =>
      start_loc <-r random_location env ;;
      start_dir <-r random_direction env speed ;;
      create_cells env speed n'
        (population ++ [Cell.init constants start_loc start_dir])
  end.

(** [Model.__init__]. The three checks come first; a [raise] leaves
    no object. The draw counter after construction is dropped. *)
Definition init (env : Env) (seed : nat) (cells : Z) (speed : float)
    (initial_infections initial_immunities : Z) : result t :=
  if initial_infections <=? 0 then
    Raise (ValueError "We don't have enough infected potatoes.")
  else if initial_immunities <? 0 then
    Raise (ValueError "Can't have negative potatoes!")
  else if initial_infections + initial_immunities >=? cells then
    Raise (ValueError "Too few vulnerable potatoes!")
  else
    let population :=
      fst (create_cells env speed (Z.to_nat cells) [] seed) in
    let population :=
      fold_left (fun population i =>
                   alter (Cell.contract_disease constants) i population)
                (range 0 (Z.to_nat initial_infections)) population in
    let population :=
      fold_left (fun population j =>
                   alter (Cell.immunize constants) j population)
                (range (Z.to_nat initial_infections)
                       (Z.to_nat (initial_infections + initial_immunities)))
                population in
    Return (mk population 0 initial_infections initial_immunities).

(** The body of the inner loop of [check_contacts] for one pair of
    indices. Both indices come from [range(.., len(population))], so
    the lookups succeed. *)
Definition contact (population : list Cell.t) (cell_one cell_two : nat)
    : list Cell.t :=
  match population !! cell_one, population !! cell_two with
  | Some one, Some two =>
      let point_one := Cell.location one in
      let point_two := Cell.location two in
      let check_distance := Point.distance point_one point_two in
      if float_le check_distance (CELL_RADIUS constants) then
        let '(one', two') := Cell.contact_with constants one two in
        <[cell_two := two']> (<[cell_one := one']> population)
      else population
  | _, _ => population
  end.

(** The two nested loops of [check_contacts]. *)
Definition contacts_pass (population : list Cell.t) : list Cell.t :=
  fold_left
    (fun population cell_one =>
       fold_left
         (fun population cell_two => contact population cell_one cell_two)
         (range (cell_one + 1) (length population)) population)
    (range 0 (length population)) population.

Definition check_contacts (self : t) : t :=
  set_population (contacts_pass (population self)) self.

(** [Model.enforce_bounds]: four independent [if]s, in this order. *)
Definition enforce_bounds (cell : Cell.t) : Cell.t :=
  let bounce_x (bound : float) (cell : Cell.t) :=
    Cell.mk (Point.mk bound (Point.y (Cell.location cell)))
            (Point.mk (PrimFloat.mul (Point.x (Cell.direction cell)) (-1)%float)
                      (Point.y (Cell.direction cell)))
            (Cell.sickness cell) in
  let bounce_y (bound : float) (cell : Cell.t) :=
    Cell.mk (Point.mk (Point.x (Cell.location cell)) bound)
            (Point.mk (Point.x (Cell.direction cell))
                      (PrimFloat.mul (Point.y (Cell.direction cell)) (-1)%float))
            (Cell.sickness cell) in
  let cell :=
    if float_gt (Point.x (Cell.location cell)) (MAX_X constants)
    then bounce_x (MAX_X constants) cell else cell in
  let cell :=
    if float_lt (Point.x (Cell.location cell)) (MIN_X constants)
    then bounce_x (MIN_X constants) cell else cell in
  let cell :=
    if float_gt (Point.y (Cell.location cell)) (MAX_Y constants)
    then bounce_y (MAX_Y constants) cell else cell in
  if float_lt (Point.y (Cell.location cell)) (MIN_Y constants)
  then bounce_y (MIN_Y constants) cell else cell.

(** [Model.tick] *)
Definition tick (self : t) : t :=
  let self := set_time (time self + 1) self in
  let self :=
    set_population
      (map (fun cell => enforce_bounds (Cell.tick constants cell))
           (population self)) self in
  check_contacts self.

(** [Model.is_complete] *)
Definition is_complete (self : t) : bool :=
  fold_left
    (fun complete_bool cell =>
       if Cell.is_infected constants cell then false else complete_bool)
    (population self) true.

End WithConstants.

End Model.

(** ** Notions used in the statements *)

(** The three health tiers, told apart the way [Cell.color] does it:
    vulnerable first, then immune, everything else counts as infected. *)
Inductive Tier := Vulnerable | Infected | Immune.

Definition tier_rank (t : Tier) : nat :=
  match t with
  | Vulnerable => 0
  | Infected => 1
  | Immune => 2
  end.

Definition tier (constants : Constants) (c : Cell.t) : Tier :=
  if Cell.is_vulnerable constants c then Vulnerable
  else if Cell.is_immune constants c then Immune
  else Infected.

(** The test of [check_contacts] on two Cells: are they close enough? *)
Definition within_radius (constants : Constants) (a b : Cell.t) : bool :=
  float_le (Point.distance (Cell.location a) (Cell.location b))
           (CELL_RADIUS constants).

(** [n] successive calls of [Cell.tick] and of [Model.tick]. *)
Definition cell_ticks (constants : Constants) (n : nat) (c : Cell.t) : Cell.t :=
  Nat.iter n (Cell.tick constants) c.

Definition ticks (constants : Constants) (n : nat) (m : Model.t) : Model.t :=
  Nat.iter n (Model.tick constants) m.

(** A pass that visits the pairs of a given list, in the order of the
    list, with the loop body of [check_contacts]; and the list of pairs
    that the two nested loops of [check_contacts] go through. *)
Definition check_pairs (constants : Constants) (pairs : list (nat * nat))
    (population : list Cell.t) : list Cell.t :=
  fold_left (fun population pair =>
               Model.contact constants population (fst pair) (snd pair))
            pairs population.

Definition population_order (n : nat) : list (nat * nat) :=
  flat_map (fun cell_one => map (pair cell_one) (range (cell_one + 1) n))
           (range 0 n).

(** What one Cell can look like after a pass, given how it looked before:
    untouched, or a vulnerable or infected Cell on which
    [contract_disease] was called. *)
Definition after_contacts (constants : Constants) (c c' : Cell.t) : Prop :=
  c' = c \/
  (c' = Cell.contract_disease constants c /\
   (Cell.is_vulnerable constants c = true \/ Cell.is_infected constants c = true)).

(** A float that is a number. *)
Definition is_number (f : float) : Prop := PrimFloat.is_nan f = false.

(** What [enforce_bounds] does on one axis with bounds [lo] and [hi]:
    [p], [v] are the position and the velocity before the call, [p'],
    [v'] after it. Above [hi] or below [lo] the position is clamped and
    the velocity negated; otherwise both are kept. *)
Definition axis_bounce (lo hi p v p' v' : float) : Prop :=
  (float_gt p hi = true ->
   p' = hi /\ v' = PrimFloat.opp v /\ PrimFloat.abs v' = PrimFloat.abs v) /\
  (float_gt p hi = false -> float_lt p lo = true ->
   p' = lo /\ v' = PrimFloat.opp v /\ PrimFloat.abs v' = PrimFloat.abs v) /\
  (float_gt p hi = false -> float_lt p lo = false -> p' = p /\ v' = v).

(** What [PrimFloat.is_finite] says of the number a float stands for:
    a zero or a finite value, not an infinity, not NaN. *)
Definition finite_spec (a : spec_float) : Prop :=
  match a with
  | S754_zero _ | S754_finite _ _ _ => True
  | _ => False
  end.

(** A Cell whose position and velocity are finite numbers, and a Cell
    that lies inside the arena. *)
Definition finite_cell (c : Cell.t) : bool :=
  PrimFloat.is_finite (Point.x (Cell.location c))
  && PrimFloat.is_finite (Point.y (Cell.location c))
  && PrimFloat.is_finite (Point.x (Cell.direction c))
  && PrimFloat.is_finite (Point.y (Cell.direction c)).

Definition in_arena (constants : Constants) (c : Cell.t) : bool :=
  float_le (MIN_X constants) (Point.x (Cell.location c))
  && float_le (Point.x (Cell.location c)) (MAX_X constants)
  && float_le (MIN_Y constants) (Point.y (Cell.location c))
  && float_le (Point.y (Cell.location c)) (MAX_Y constants).

(** The number of calls of [Cell.tick] an infected Cell is away from
    not being infected any more, if nothing resets its counter. *)
Definition steps_to_immune (constants : Constants) (c : Cell.t) : nat :=
  if Cell.is_infected constants c
  then (Z.to_nat (90 - Cell.sickness c) + 1)%nat
  else 0%nat.

(** A Cell that is not vulnerable and at most [k] ticks away from not
    being infected. *)
Definition settling (constants : Constants) (k : nat) (c : Cell.t) : Prop :=
  Cell.is_vulnerable constants c = false /\
  (steps_to_immune constants c <= k)%nat.



(** How many Cells of a population satisfy a test. *)
Definition count_cells (test : Cell.t -> bool) (population : list Cell.t) : nat :=
  length (List.filter test population).

(** Where the constructor puts its [k]-th Cell and which velocity it
    gives it, from the draws it makes: three per Cell. *)
Definition drawn_location (constants : Constants) (env : Env) (seed k : nat)
    : Point.t :=
  Point.mk
    (PrimFloat.sub (PrimFloat.mul (draws env (seed + 3 * k)%nat)
                                  (BOUNDS_WIDTH constants))
                   (MAX_X constants))
    (PrimFloat.sub (PrimFloat.mul (draws env (seed + 3 * k + 1)%nat)
                                  (BOUNDS_HEIGHT constants))
                   (MAX_Y constants)).

Definition drawn_direction (env : Env) (speed : float) (seed k : nat) : Point.t :=
  let random_angle :=
    PrimFloat.mul (PrimFloat.mul 2%float (pi env))
                  (draws env (seed + 3 * k + 2)%nat) in
  Point.mk (PrimFloat.mul (cos env random_angle) speed)
           (PrimFloat.mul (sin env random_angle) speed).

(** ** Data for the examples

    Constants in which the immune value lies below the infection
    threshold, an arena of 400 by 400 and a contact radius of 15. *)
Definition sample_constants : Constants := {|
  VULNERABLE := 0;
  INFECTED := 1;
  IMMUNE := -1;
  CELL_RADIUS := 15%float;
  BOUNDS_WIDTH := 400%float;
  BOUNDS_HEIGHT := 400%float;
  MAX_X := 200%float;
  MIN_X := (-200)%float;
  MAX_Y := 200%float;
  MIN_Y := (-200)%float
|}.

(** Constants ordered the other way: the immune value above the infected
    range. *)
Definition immune_on_top : Constants := {|
  VULNERABLE := 0;
  INFECTED := 1;
  IMMUNE := 100;
  CELL_RADIUS := 15%float;
  BOUNDS_WIDTH := 400%float;
  BOUNDS_HEIGHT := 400%float;
  MAX_X := 200%float;
  MIN_X := (-200)%float;
  MAX_Y := 200%float;
  MIN_Y := (-200)%float
|}.

(** An environment whose draws cycle through four values and whose
    heading is always along the x axis. *)
Definition sample_env : Env := {|
  pi := 0x1.921fb54442d18p+1%float;
  cos := fun _ => 1%float;
  sin := fun _ => 0%float;
  draws := fun n =>
    match Nat.modulo n 4 with
    | 0%nat => 0.5%float
    | 1%nat => 0.25%float
    | 2%nat => 0.75%float
    | _ => 0.125%float
    end
|}.

Definition still : Point.t := Point.mk 0%float 0%float.

(** A Cell at rest at [(x, 0)] with the given [sickness]. *)
Definition cell_at (x : float) (sickness : Z) : Cell.t :=
  Cell.mk (Point.mk x 0%float) still sickness.

(** Three Cells on a line, ten apart: infected, vulnerable, vulnerable.
    Neighbours are within the radius of 15, the two ends are not. *)
Definition chain : list Cell.t :=
  [cell_at 0%float 1; cell_at 10%float 0; cell_at 20%float 0].

(** The three pairs of [chain], the far pair first. *)
Definition far_pair_first : list (nat * nat) :=
  [(1%nat, 2%nat); (0%nat, 1%nat); (0%nat, 2%nat)].

(** An immune Cell between an infected one with counter 50 and a
    vulnerable one, all within the radius. *)
Definition immune_between : list Cell.t :=
  [cell_at 0%float (-1); cell_at 5%float 50; cell_at 10%float 0].

(** Two Cells thirty apart that move ten towards each other, the first
    one infected; and two Cells ten apart that move ten away from each
    other, the first one infected. *)
Definition approaching : list Cell.t :=
  [Cell.mk (Point.mk 0%float 0%float) (Point.mk 10%float 0%float) 1;
   Cell.mk (Point.mk 30%float 0%float) (Point.mk (-10)%float 0%float) 0].

Definition parting : list Cell.t :=
  [Cell.mk (Point.mk 0%float 0%float) (Point.mk (-10)%float 0%float) 1;
   Cell.mk (Point.mk 10%float 0%float) (Point.mk 10%float 0%float) 0].

(** A Cell whose x coordinate is not a number. *)
Definition lost : Cell.t :=
  Cell.mk (Point.mk PrimFloat.nan 250%float) (Point.mk 1%float 2%float) 0.

(** A Model with nobody left to infect: one Cell infected with counter
    88, one immune. *)
Definition burning_out : Model.t :=
  Model.mk [cell_at 0%float 88; cell_at 5%float (-1)] 0 1 1.

(** A Cell inside the arena that moves three to the right and one and a
    half up per step. *)
Definition wanderer : Cell.t :=
  Cell.mk (Point.mk 150%float 100%float) (Point.mk 3%float 1.5%float) 1.

(** A Cell that has left the arena through the top right corner. *)
Definition escaped : Cell.t :=
  Cell.mk (Point.mk 203%float 201.5%float) (Point.mk 3%float 1.5%float) 0.

(** * Properties *)

(** ** Binary64 facts used by the bounds and the distance *)

Section FloatFacts.

Lemma SFcompare_antisym (a b : spec_float) :
  SFcompare b a = option_map CompOpp (SFcompare a b).
Proof.
  destruct a as [sa|sa| |sa ma ea], b as [sb|sb| |sb mb eb]; simpl;
    try reflexivity;
    try (destruct sa; reflexivity); try (destruct sb; reflexivity);
    try (destruct sa, sb; reflexivity).
  destruct sa, sb; simpl; try reflexivity;
    rewrite (Z.compare_antisym ea eb); destruct (ea ?= eb)%Z; simpl;
    try reflexivity; rewrite Pos.compare_cont_antisym; simpl;
    try reflexivity.
  rewrite CompOpp_involutive. reflexivity.
Qed.

Lemma SFcompare_refl (a : spec_float) :
  a <> S754_nan -> SFcompare a a = Some Eq.
Proof.
  destruct a as [sa|sa| |sa ma ea]; simpl; intros H; try congruence.
  - destruct sa; reflexivity.
  - destruct sa; rewrite Z.compare_refl, Pos.compare_cont_refl; reflexivity.
Qed.

Lemma SFcompare_nan_l (a b : spec_float) :
  SFcompare a b <> None -> a <> S754_nan.
Proof. intros H ->. apply H. reflexivity. Qed.

Lemma SFcompare_nan_r (a b : spec_float) :
  SFcompare a b <> None -> b <> S754_nan.
Proof. intros H ->. apply H. destruct a; reflexivity. Qed.

Lemma is_number_spec (f : float) : is_number f <-> Prim2SF f <> S754_nan.
Proof.
  unfold is_number, PrimFloat.is_nan. rewrite FloatAxioms.eqb_spec. unfold SFeqb. split.
  - intros H E. rewrite E in H. discriminate.
  - intros H. rewrite (SFcompare_refl _ H). reflexivity.
Qed.

Lemma float_le_is_number (a b : float) :
  float_le a b = true -> is_number a /\ is_number b.
Proof.
  unfold float_le. rewrite FloatAxioms.leb_spec. unfold SFleb. intros H.
  rewrite !is_number_spec. split.
  - apply (SFcompare_nan_l _ (Prim2SF b)). destruct (SFcompare _ _); congruence.
  - apply (SFcompare_nan_r (Prim2SF a)). destruct (SFcompare _ _); congruence.
Qed.

Lemma float_le_refl (a : float) : is_number a -> float_le a a = true.
Proof.
  rewrite is_number_spec. intros H. unfold float_le.
  rewrite FloatAxioms.leb_spec. unfold SFleb. rewrite (SFcompare_refl _ H). reflexivity.
Qed.

(** [a <= b] excludes [a > b] ... *)
Lemma float_le_not_gt (a b : float) :
  float_le a b = true -> float_gt a b = false.
Proof.
  unfold float_le, float_gt. rewrite FloatAxioms.leb_spec, FloatAxioms.ltb_spec. unfold SFleb, SFltb.
  rewrite (SFcompare_antisym (Prim2SF a) (Prim2SF b)).
  destruct (SFcompare (Prim2SF a) (Prim2SF b)) as [[]|]; simpl; congruence.
Qed.

Lemma SFcompare_numbers (a b : spec_float) :
  a <> S754_nan -> b <> S754_nan -> exists c, SFcompare a b = Some c.
Proof.
  destruct a as [sa|sa| |sa ma ea], b as [sb|sb| |sb mb eb]; simpl;
    intros Ha Hb; try congruence; eauto.
Qed.

(** ... and between numbers, not [a > b] is [a <= b]. *)
Lemma float_not_gt_le (a b : float) :
  is_number a -> is_number b -> float_gt a b = false -> float_le a b = true.
Proof.
  rewrite !is_number_spec. unfold float_le, float_gt.
  rewrite FloatAxioms.leb_spec, FloatAxioms.ltb_spec. unfold SFleb, SFltb.
  rewrite (SFcompare_antisym (Prim2SF a) (Prim2SF b)). intros Ha Hb.
  destruct (SFcompare_numbers _ _ Ha Hb) as [c ->].
  destruct c; simpl; congruence.
Qed.

Lemma float_not_lt_ge (a b : float) :
  is_number a -> is_number b -> float_lt a b = false -> float_le b a = true.
Proof. intros Ha Hb. apply (float_not_gt_le b a); assumption. Qed.

Lemma float_le_not_lt (a b : float) :
  float_le a b = true -> float_lt b a = false.
Proof. apply float_le_not_gt. Qed.

(** Multiplying by [-1] is exact: it is the negation. *)
Lemma digits2_pos_shift52 (m : positive) :
  Zpos (digits2_pos (4503599627370496 * m)) = Zpos (digits2_pos m) + 52.
Proof.
  change (4503599627370496 * m)%positive with (Pos.iter xO m 52%positive).
  cbn [Pos.iter digits2_pos]. lia.
Qed.

Lemma iter_shr_1_shift52 (m : positive) :
  SpecFloat.iter_pos shr_1 52
    (Build_shr_record (Zpos (4503599627370496 * m)) false false)
  = Build_shr_record (Zpos m) false false.
Proof.
  change (4503599627370496 * m)%positive with (Pos.iter xO m 52%positive).
  reflexivity.
Qed.

Lemma SF64mul_minus_one (a : spec_float) :
  valid_binary a = true ->
  SF64mul a (S754_finite true 4503599627370496 (-52)) = SFopp a.
Proof.
  destruct a as [s|s| |s m e]; simpl; intros Hv;
    try (destruct s; reflexivity); try reflexivity.
  unfold SF64mul, SFmul, bounded, canonical_mantissa in *.
  apply andb_prop in Hv as [Hc He].
  apply Z.eqb_eq in Hc.
  rewrite (Pos.mul_comm m).
  unfold binary_round_aux, shr_fexp.
  cbn [Zdigits2 shr_record_of_loc].
  rewrite digits2_pos_shift52.
  replace (Zpos (digits2_pos m) + 52 + (e + -52))
    with (Zpos (digits2_pos m) + e) by lia.
  rewrite Hc.
  replace (e - (e + -52)) with 52 by lia.
  cbn [shr]. rewrite iter_shr_1_shift52.
  cbn [shr_m loc_of_shr_record round_nearest_even Zdigits2 shr_record_of_loc].
  replace (e + -52 + 52) with e by lia.
  rewrite Hc, Z.sub_diag. cbn [shr shr_m].
  rewrite He. destruct s; reflexivity.
Qed.

Lemma mul_minus_one (a : float) :
  PrimFloat.mul a (-1)%float = PrimFloat.opp a.
Proof.
  apply Prim2SF_inj. rewrite FloatAxioms.mul_spec, FloatAxioms.opp_spec.
  apply SF64mul_minus_one, Prim2SF_valid.
Qed.

Lemma abs_opp (a : float) : PrimFloat.abs (PrimFloat.opp a) = PrimFloat.abs a.
Proof.
  apply Prim2SF_inj. rewrite !FloatAxioms.abs_spec, FloatAxioms.opp_spec.
  destruct (Prim2SF a); reflexivity.
Qed.

Lemma opp_opp (a : float) : PrimFloat.opp (PrimFloat.opp a) = a.
Proof.
  apply Prim2SF_inj. rewrite !FloatAxioms.opp_spec.
  destruct (Prim2SF a) as [s|s| |s m e]; simpl; rewrite ?negb_involutive;
    reflexivity.
Qed.

End FloatFacts.

(** ** One Cell: [tick] and [contact_with] *)

Section CellFacts.
  Context (constants : Constants).

Lemma is_infected_spec (c : Cell.t) :
  Cell.is_infected constants c = true <-> INFECTED constants <= Cell.sickness c.
Proof. unfold Cell.is_infected. rewrite Z.geb_le. reflexivity. Qed.

Lemma is_infected_false (c : Cell.t) :
  Cell.is_infected constants c = false <-> Cell.sickness c < INFECTED constants.
Proof.
  unfold Cell.is_infected. rewrite Z.geb_leb, Z.leb_gt. reflexivity.
Qed.

Lemma is_vulnerable_spec (c : Cell.t) :
  Cell.is_vulnerable constants c = true <-> Cell.sickness c = VULNERABLE constants.
Proof. apply Z.eqb_eq. Qed.

Lemma is_immune_spec (c : Cell.t) :
  Cell.is_immune constants c = true <-> Cell.sickness c = IMMUNE constants.
Proof. apply Z.eqb_eq. Qed.

Lemma is_immune_false (c : Cell.t) :
  Cell.is_immune constants c = false <-> Cell.sickness c <> IMMUNE constants.
Proof. apply Z.eqb_neq. Qed.

Lemma is_vulnerable_false (c : Cell.t) :
  Cell.is_vulnerable constants c = false <-> Cell.sickness c <> VULNERABLE constants.
Proof. apply Z.eqb_neq. Qed.

(** The health side of [Cell.tick], by cases on the counter. *)
Lemma sickness_tick_below (c : Cell.t) :
  Cell.sickness c < 90 ->
  Cell.sickness (Cell.tick constants c)
  = if Cell.is_infected constants c then Cell.sickness c + 1 else Cell.sickness c.
Proof.
  intros Hs. unfold Cell.tick, Cell.is_infected. cbn.
  destruct (Z.geb_spec (Cell.sickness c) 90) as [?|_]; [lia|]. cbn.
  destruct (Cell.sickness c >=? INFECTED constants); reflexivity.
Qed.

Lemma sickness_tick_ceiling (c : Cell.t) :
  90 <= Cell.sickness c ->
  Cell.sickness (Cell.tick constants c)
  = if IMMUNE constants >=? INFECTED constants
    then IMMUNE constants + 1 else IMMUNE constants.
Proof.
  intros Hs. unfold Cell.tick, Cell.is_infected. cbn.
  destruct (Z.geb_spec (Cell.sickness c) 90) as [_|?]; [|lia]. cbn.
  destruct (IMMUNE constants >=? INFECTED constants); reflexivity.
Qed.

Lemma cell_ticks_S (n : nat) (c : Cell.t) :
  cell_ticks constants (S n) c = Cell.tick constants (cell_ticks constants n c).
Proof. reflexivity. Qed.

(** While the counter has not passed the ceiling, [k] ticks add [k]. *)
Lemma cell_ticks_counts (c : Cell.t) (k : nat) :
  INFECTED constants <= Cell.sickness c ->
  Cell.sickness c + Z.of_nat k <= 90 ->
  Cell.sickness (cell_ticks constants k c) = Cell.sickness c + Z.of_nat k.
Proof.
  intros Hinf. induction k as [|k IH]; intros Hk.
  - cbn. lia.
  - rewrite cell_ticks_S, sickness_tick_below; rewrite IH; try lia.
    assert (Cell.is_infected constants (cell_ticks constants k c) = true) as ->
      by (apply is_infected_spec; rewrite IH; lia).
    lia.
Qed.

(** [contact_with] does not depend on which Cell is [self]. *)
Lemma contact_with_swap (a b : Cell.t) :
  Cell.contact_with constants b a
  = (snd (Cell.contact_with constants a b), fst (Cell.contact_with constants a b)).
Proof.
  unfold Cell.contact_with.
  destruct (Cell.is_vulnerable constants a), (Cell.is_infected constants a),
    (Cell.is_vulnerable constants b), (Cell.is_infected constants b);
    reflexivity.
Qed.

Lemma contact_with_idle (a b : Cell.t) :
  (Cell.is_vulnerable constants a && Cell.is_infected constants b)
  || (Cell.is_infected constants a && Cell.is_vulnerable constants b) = false ->
  Cell.contact_with constants a b = (a, b).
Proof. unfold Cell.contact_with. intros ->. reflexivity. Qed.

End CellFacts.

(** C2, as it holds: under the condition that the immune value lies
    below the infection threshold. An infected Cell whose counter is
    below the ceiling of 90 is incremented by exactly 1 by [Cell.tick],
    also on the tick that takes it to 90; a Cell whose counter has
    reached (or passed) 90 becomes immune on its next tick and gets no
    increment on that tick. Over repeated ticks: the counter counts up
    to 90, and the Cell is immune for the first time after the tick that
    follows. *)
Theorem tick_immunizes_at_ceiling (constants : Constants) (c : Cell.t) :
  IMMUNE constants < INFECTED constants ->
  Cell.is_infected constants c = true ->
  let s := Cell.sickness c in
  let n := Z.to_nat (90 - s) in
  (s < 90 ->
   Cell.sickness (Cell.tick constants c) = s + 1 /\
   Cell.is_infected constants (Cell.tick constants c) = true /\
   Cell.is_immune constants (Cell.tick constants c) = false) /\
  (90 <= s ->
   Cell.sickness (Cell.tick constants c) = IMMUNE constants /\
   Cell.is_immune constants (Cell.tick constants c) = true) /\
  (forall k : nat, (k <= n)%nat ->
   Cell.sickness (cell_ticks constants k c) = s + Z.of_nat k /\
   Cell.is_infected constants (cell_ticks constants k c) = true /\
   Cell.is_immune constants (cell_ticks constants k c) = false) /\
  Cell.sickness (cell_ticks constants (S n) c) = IMMUNE constants /\
  Cell.is_immune constants (cell_ticks constants (S n) c) = true.
Proof.
  intros Hord Hinf s n. pose proof (proj1 (is_infected_spec _ _) Hinf) as Hs.
  fold s in Hs.
  assert (Hceil : forall d, 90 <= Cell.sickness d ->
            Cell.sickness (Cell.tick constants d) = IMMUNE constants).
  { intros d Hd. rewrite sickness_tick_ceiling by assumption.
    destruct (Z.geb_spec (IMMUNE constants) (INFECTED constants)); [lia|reflexivity]. }
  assert (Hcount : forall k : nat, (k <= n)%nat ->
            Cell.sickness (cell_ticks constants k c) = s + Z.of_nat k).
  { intros k Hk. destruct k as [|k]; [cbn; fold s; lia|].
    apply cell_ticks_counts; fold s; lia. }
  repeat split.
  - rewrite sickness_tick_below, Hinf by assumption. reflexivity.
  - apply is_infected_spec. rewrite sickness_tick_below, Hinf by assumption.
    fold s. lia.
  - apply is_immune_false. rewrite sickness_tick_below, Hinf by assumption.
    fold s. lia.
  - apply Hceil. assumption.
  - apply is_immune_spec, Hceil. assumption.
  - apply Hcount. assumption.
  - apply is_infected_spec. rewrite Hcount by assumption. lia.
  - apply is_immune_false. rewrite Hcount by assumption. lia.
  - rewrite cell_ticks_S. apply Hceil. rewrite Hcount by lia. lia.
  - apply is_immune_spec. rewrite cell_ticks_S. apply Hceil.
    rewrite Hcount by lia. lia.
Qed.

Lemma tick_immunizes_at_ceiling_witness :
  IMMUNE sample_constants < INFECTED sample_constants /\
  Cell.is_infected sample_constants (cell_at 0%float 88) = true /\
  Cell.sickness (cell_ticks sample_constants 2 (cell_at 0%float 88)) = 90 /\
  Cell.sickness (cell_ticks sample_constants 3 (cell_at 0%float 88)) = -1.
Proof.
  assert (H1 : IMMUNE sample_constants < INFECTED sample_constants) by reflexivity.
  assert (H2 : Cell.is_infected sample_constants (cell_at 0%float 88) = true)
    by reflexivity.
  pose proof (tick_immunizes_at_ceiling sample_constants (cell_at 0%float 88) H1 H2)
    as (_ & _ & Hk & Hend & _).
  exact (conj H1 (conj H2 (conj (proj1 (Hk 2%nat (le_n 2))) Hend))).
Defined.

(** C2 without that condition fails. For no constants with [INFECTED <=
    IMMUNE] does the tick at the ceiling make every infected Cell
    immune: [immunize] sets the immune value, [is_infected] then holds of
    it, and the same tick increments it, so the Cell ends at [IMMUNE +
    1], which is not the immune value. *)
Lemma ceiling_tick_increments_immune_value :
  ~ exists constants : Constants,
      INFECTED constants <= IMMUNE constants /\
      forall c : Cell.t,
        Cell.is_infected constants c = true -> 90 <= Cell.sickness c ->
        Cell.is_immune constants (Cell.tick constants c) = true.
Proof.
  intros (constants & Hord & H).
  set (c := Cell.mk still still (Z.max 90 (INFECTED constants))).
  assert (Hi : Cell.is_infected constants c = true)
    by (apply is_infected_spec; cbn; lia).
  assert (H90 : 90 <= Cell.sickness c) by (cbn; lia).
  specialize (H c Hi H90). apply is_immune_spec in H.
  rewrite sickness_tick_ceiling in H by exact H90.
  destruct (Z.geb_spec (IMMUNE constants) (INFECTED constants)); lia.
Qed.

(** C10. When [contact_with] pairs an infected Cell with a vulnerable
    one, whichever of the two is [self], [contract_disease] runs on both:
    both end at the infection start value, so a counter that had advanced
    is put back to the start. *)
Theorem contact_resets_infected_counter (constants : Constants) (a b : Cell.t) :
  Cell.is_infected constants a = true ->
  Cell.is_vulnerable constants b = true ->
  Cell.contact_with constants a b
  = (Cell.contract_disease constants a, Cell.contract_disease constants b) /\
  Cell.contact_with constants b a
  = (Cell.contract_disease constants b, Cell.contract_disease constants a) /\
  Cell.sickness (fst (Cell.contact_with constants a b)) = INFECTED constants /\
  Cell.sickness (snd (Cell.contact_with constants b a)) = INFECTED constants /\
  (INFECTED constants < Cell.sickness a ->
   Cell.sickness (fst (Cell.contact_with constants a b)) < Cell.sickness a).
Proof.
  intros Ha Hb.
  assert (E1 : Cell.contact_with constants a b
               = (Cell.contract_disease constants a, Cell.contract_disease constants b)).
  { unfold Cell.contact_with. rewrite Ha, Hb, orb_true_r. reflexivity. }
  assert (E2 : Cell.contact_with constants b a
               = (Cell.contract_disease constants b, Cell.contract_disease constants a)).
  { rewrite contact_with_swap, E1. reflexivity. }
  rewrite E1, E2. cbn. repeat split; trivial.
Qed.

Lemma contact_resets_infected_counter_witness :
  Cell.is_infected sample_constants (cell_at 0%float 50) = true /\
  Cell.is_vulnerable sample_constants (cell_at 5%float 0) = true /\
  Cell.contact_with sample_constants (cell_at 0%float 50) (cell_at 5%float 0)
  = (cell_at 0%float 1, cell_at 5%float 1).
Proof.
  refine (conj eq_refl (conj eq_refl _)).
  exact (proj1 (contact_resets_infected_counter sample_constants
                  (cell_at 0%float 50) (cell_at 5%float 0) eq_refl eq_refl)).
Defined.

(** ** [Model.enforce_bounds] *)

Section BoundsFacts.
  Context (constants : Constants).

Lemma enforce_bounds_sickness (cell : Cell.t) :
  Cell.sickness (Model.enforce_bounds constants cell) = Cell.sickness cell.
Proof.
  unfold Model.enforce_bounds.
  repeat match goal with
         | |- context [if ?b then _ else _] => destruct b; cbn
         end; reflexivity.
Qed.

End BoundsFacts.

(** C7. With an arena whose lower bounds do not exceed the upper ones
    and a Cell whose coordinates are numbers, [enforce_bounds] leaves the
    Cell inside [[MIN, MAX]] on both axes. On each axis, independently of
    the other: a position above [MAX] or below [MIN] is replaced by that
    bound and the velocity is negated (same magnitude, opposite sign); a
    position inside keeps position and velocity. The health state is not
    touched. *)
Theorem enforce_bounds_bounces (constants : Constants) (cell : Cell.t) :
  float_le (MIN_X constants) (MAX_X constants) = true ->
  float_le (MIN_Y constants) (MAX_Y constants) = true ->
  is_number (Point.x (Cell.location cell)) ->
  is_number (Point.y (Cell.location cell)) ->
  let cell' := Model.enforce_bounds constants cell in
  (float_le (MIN_X constants) (Point.x (Cell.location cell')) = true /\
   float_le (Point.x (Cell.location cell')) (MAX_X constants) = true /\
   float_le (MIN_Y constants) (Point.y (Cell.location cell')) = true /\
   float_le (Point.y (Cell.location cell')) (MAX_Y constants) = true) /\
  axis_bounce (MIN_X constants) (MAX_X constants)
    (Point.x (Cell.location cell)) (Point.x (Cell.direction cell))
    (Point.x (Cell.location cell')) (Point.x (Cell.direction cell')) /\
  axis_bounce (MIN_Y constants) (MAX_Y constants)
    (Point.y (Cell.location cell)) (Point.y (Cell.direction cell))
    (Point.y (Cell.location cell')) (Point.y (Cell.direction cell')) /\
  Cell.sickness cell' = Cell.sickness cell.
Proof.
  intros Hx Hy Nx Ny.
  destruct cell as [[x y] [dx dy] s]. cbn in Nx, Ny.
  destruct (float_le_is_number _ _ Hx) as [Nlx Nhx].
  destruct (float_le_is_number _ _ Hy) as [Nly Nhy].
  pose proof (float_le_not_lt _ _ Hx) as Lx.
  pose proof (float_le_not_lt _ _ Hy) as Ly.
  unfold Model.enforce_bounds, axis_bounce. cbn -[float_gt float_lt float_le].
  destruct (float_gt x (MAX_X constants)) eqn:Ex1; cbn -[float_gt float_lt float_le];
    [rewrite Lx | destruct (float_lt x (MIN_X constants)) eqn:Ex2];
    cbn -[float_gt float_lt float_le];
    (destruct (float_gt y (MAX_Y constants)) eqn:Ey1;
     cbn -[float_gt float_lt float_le];
     [rewrite Ly | destruct (float_lt y (MIN_Y constants)) eqn:Ey2];
     cbn -[float_gt float_lt float_le]);
    rewrite ?mul_minus_one, ?abs_opp;
    repeat match goal with
           | |- _ /\ _ => split
           | |- _ -> _ => intro
           end;
    try congruence; try reflexivity;
    auto using float_le_refl, float_not_gt_le, float_not_lt_ge.
Qed.

Lemma enforce_bounds_bounces_witness :
  float_le (MIN_X sample_constants) (MAX_X sample_constants) = true /\
  float_le (MIN_Y sample_constants) (MAX_Y sample_constants) = true /\
  is_number (Point.x (Cell.location escaped)) /\
  is_number (Point.y (Cell.location escaped)) /\
  axis_bounce (MIN_X sample_constants) (MAX_X sample_constants)
    203%float 3%float 200%float (-3)%float /\
  axis_bounce (MIN_Y sample_constants) (MAX_Y sample_constants)
    201.5%float 1.5%float 200%float (-1.5)%float.
Proof.
  pose proof (enforce_bounds_bounces sample_constants escaped
                eq_refl eq_refl eq_refl eq_refl) as (_ & Bx & By & _).
  exact (conj eq_refl (conj eq_refl (conj eq_refl (conj eq_refl (conj Bx By))))).
Defined.

(** ** [Point.distance] does not depend on which Point is [self] *)

Section DistanceFacts.

Lemma binary_round_aux_negb (s : bool) (m e : Z) (l : location) :
  binary_round_aux prec emax (negb s) m e l
  = SFopp (binary_round_aux prec emax s m e l).
Proof.
  unfold binary_round_aux.
  destruct (shr_fexp prec emax m e l) as [mrs' e'].
  destruct (shr_fexp prec emax _ e' loc_Exact) as [mrs'' e''].
  destruct (shr_m mrs''); try reflexivity.
  destruct (e'' <=? emax - prec); reflexivity.
Qed.

Lemma binary_normalize_opp (m e : Z) :
  binary_normalize prec emax (- m) e false
  = match m with
    | Z0 => S754_zero false
    | _ => SFopp (binary_normalize prec emax m e false)
    end.
Proof.
  destruct m as [|p|p]; simpl; try reflexivity; unfold binary_round;
    destruct (shl_align _ _ _) as [mz ez].
  - apply (binary_round_aux_negb false).
  - apply (binary_round_aux_negb true).
Qed.

(** [b - a] is [a - b] or its negation (the same when both are zero). *)
Lemma SF64sub_swap (a b : spec_float) :
  SF64sub b a = SF64sub a b \/ SF64sub b a = SFopp (SF64sub a b).
Proof.
  destruct a as [sa|sa| |sa ma ea], b as [sb|sb| |sb mb eb]; simpl;
    try (left; reflexivity);
    try (destruct sa, sb; simpl; auto; fail);
    try (destruct sa; simpl; auto; fail);
    try (destruct sb; simpl; auto; fail).
  replace (IntDef.Z.min eb ea) with (IntDef.Z.min ea eb) by apply Z.min_comm.
  set (A := cond_Zopp sa _). set (B := cond_Zopp sb _).
  replace (B - A) with (- (A - B)) by lia.
  rewrite binary_normalize_opp.
  destruct (A - B); auto.
Qed.

Lemma SF64mul_opp_opp (r : spec_float) :
  SF64mul (SFopp r) (SFopp r) = SF64mul r r.
Proof.
  destruct r as [s|s| |s m e]; simpl; try reflexivity; destruct s; reflexivity.
Qed.

Lemma square_sub_swap (u v : float) :
  PrimFloat.mul (PrimFloat.sub v u) (PrimFloat.sub v u)
  = PrimFloat.mul (PrimFloat.sub u v) (PrimFloat.sub u v).
Proof.
  apply Prim2SF_inj. rewrite !FloatAxioms.mul_spec, !sub_spec.
  destruct (SF64sub_swap (Prim2SF u) (Prim2SF v)) as [-> | ->];
    [reflexivity | apply SF64mul_opp_opp].
Qed.

Lemma distance_swap (p q : Point.t) : Point.distance q p = Point.distance p q.
Proof.
  unfold Point.distance. cbv zeta.
  rewrite (square_sub_swap (Point.x p) (Point.x q)).
  rewrite (square_sub_swap (Point.y p) (Point.y q)). reflexivity.
Qed.

Lemma within_radius_swap (constants : Constants) (a b : Cell.t) :
  within_radius constants b a = within_radius constants a b.
Proof. unfold within_radius. rewrite distance_swap. reflexivity. Qed.

End DistanceFacts.

(** ** One contact check, and passes over lists of pairs *)

Section ContactFacts.
  Context (constants : Constants).

Local Abbreviation contact := (Model.contact constants).
Local Abbreviation is_vulnerable := (Cell.is_vulnerable constants).
Local Abbreviation is_infected := (Cell.is_infected constants).
Local Abbreviation is_immune := (Cell.is_immune constants).
Local Abbreviation contract_disease := (Cell.contract_disease constants).

Lemma after_contacts_refl (c : Cell.t) : after_contacts constants c c.
Proof. left. reflexivity. Qed.

Lemma is_infected_contract (c : Cell.t) : is_infected (contract_disease c) = true.
Proof. apply is_infected_spec. cbn. lia. Qed.

Lemma after_contacts_trans (c c' c'' : Cell.t) :
  after_contacts constants c c' -> after_contacts constants c' c'' ->
  after_contacts constants c c''.
Proof.
  intros [->|[-> Hc]] [->|[-> Hc']]; [left| right | right | right]; auto.
Qed.

Lemma after_contacts_location (c c' : Cell.t) :
  after_contacts constants c c' ->
  Cell.location c' = Cell.location c /\ Cell.direction c' = Cell.direction c.
Proof. intros [->|[-> _]]; auto. Qed.

Lemma after_contacts_infected (c c' : Cell.t) :
  after_contacts constants c c' -> is_infected c = true -> is_infected c' = true.
Proof. intros [->|[-> _]] H; [assumption | apply is_infected_contract]. Qed.

(** A Cell that can take part in a transmission stays one. *)
Lemma after_contacts_prone (c c' : Cell.t) :
  after_contacts constants c c' ->
  is_vulnerable c = true \/ is_infected c = true ->
  is_vulnerable c' = true \/ is_infected c' = true.
Proof.
  intros [->|[-> _]] H; [assumption | right; apply is_infected_contract].
Qed.

Lemma after_contacts_immune (c c' : Cell.t) :
  IMMUNE constants < INFECTED constants ->
  IMMUNE constants <> VULNERABLE constants ->
  after_contacts constants c c' -> is_immune c = true -> c' = c.
Proof.
  intros H1 H2 [->|[-> [Hv|Hi]]] Him; [reflexivity | exfalso..];
    apply is_immune_spec in Him.
  - apply is_vulnerable_spec in Hv. congruence.
  - apply is_infected_spec in Hi. lia.
Qed.

Lemma contact_length (population : list Cell.t) (i j : nat) :
  length (contact population i j) = length population.
Proof.
  unfold Model.contact.
  destruct (population !! i) as [one|], (population !! j) as [two|]; trivial.
  cbv zeta. destruct (float_le _ _); trivial.
  destruct (Cell.contact_with constants one two) as [one' two'].
  rewrite !length_insert. reflexivity.
Qed.

(** When [contact_with] changes something, both Cells were vulnerable
    or infected, and both are now at the infection start value. *)
Lemma contact_with_cases (a b : Cell.t) :
  Cell.contact_with constants a b = (a, b) \/
  (Cell.contact_with constants a b = (contract_disease a, contract_disease b) /\
   (is_vulnerable a = true \/ is_infected a = true) /\
   (is_vulnerable b = true \/ is_infected b = true)).
Proof.
  unfold Cell.contact_with.
  destruct (is_vulnerable a) eqn:Va, (is_infected a) eqn:Ia,
    (is_vulnerable b) eqn:Vb, (is_infected b) eqn:Ib; cbn; auto.
Qed.

Lemma contact_with_after (a b : Cell.t) :
  after_contacts constants a (fst (Cell.contact_with constants a b)) /\
  after_contacts constants b (snd (Cell.contact_with constants a b)).
Proof.
  destruct (contact_with_cases a b) as [->|(-> & Ha & Hb)]; cbn;
    unfold after_contacts; auto.
Qed.

(** Every Cell of the population is still there after one contact
    check, untouched or freshly infected. *)
Lemma contact_lookup (population : list Cell.t) (i j k : nat) (c : Cell.t) :
  population !! k = Some c ->
  exists c', contact population i j !! k = Some c' /\ after_contacts constants c c'.
Proof.
  intros Hk. unfold Model.contact.
  destruct (population !! i) as [one|] eqn:Hi;
    [destruct (population !! j) as [two|] eqn:Hj|];
    try (exists c; split; [assumption | apply after_contacts_refl]).
  cbv zeta. destruct (float_le _ _);
    try (exists c; split; [assumption | apply after_contacts_refl]).
  destruct (contact_with_after one two) as [A1 A2].
  destruct (Cell.contact_with constants one two) as [one' two']. cbn in A1, A2.
  pose proof (lookup_lt_Some _ _ _ Hi) as Li.
  pose proof (lookup_lt_Some _ _ _ Hj) as Lj.
  destruct (decide (j = k)) as [->|Njk].
  - exists two'. rewrite list_lookup_insert_eq by (rewrite length_insert; exact Lj).
    split; [reflexivity|]. congruence.
  - rewrite list_lookup_insert_ne by assumption.
    destruct (decide (i = k)) as [->|Nik].
    + exists one'. rewrite list_lookup_insert_eq by exact Li.
      split; [reflexivity|]. congruence.
    + rewrite list_lookup_insert_ne by assumption.
      exists c; split; [assumption | apply after_contacts_refl].
Qed.

Lemma check_pairs_app (ps qs : list (nat * nat)) (population : list Cell.t) :
  check_pairs constants (ps ++ qs) population
  = check_pairs constants qs (check_pairs constants ps population).
Proof. apply fold_left_app. Qed.

Lemma check_pairs_cons (p : nat * nat) (ps : list (nat * nat))
    (population : list Cell.t) :
  check_pairs constants (p :: ps) population
  = check_pairs constants ps (contact population (fst p) (snd p)).
Proof. reflexivity. Qed.

Lemma check_pairs_length (ps : list (nat * nat)) (population : list Cell.t) :
  length (check_pairs constants ps population) = length population.
Proof.
  revert population. induction ps as [|p ps IH]; intros population; [reflexivity|].
  rewrite check_pairs_cons, IH. apply contact_length.
Qed.

Lemma check_pairs_lookup (ps : list (nat * nat)) (population : list Cell.t)
    (k : nat) (c : Cell.t) :
  population !! k = Some c ->
  exists c', check_pairs constants ps population !! k = Some c'
             /\ after_contacts constants c c'.
Proof.
  revert population c. induction ps as [|[i j] ps IH]; intros population c Hk.
  - exists c. split; [assumption | apply after_contacts_refl].
  - rewrite check_pairs_cons. cbn [fst snd].
    destruct (contact_lookup population i j k c Hk) as (c1 & H1 & A1).
    destruct (IH _ _ H1) as (c2 & H2 & A2).
    exists c2. split; [assumption | eapply after_contacts_trans; eassumption].
Qed.

End ContactFacts.

(** ** Passes: what every order of the pairs guarantees *)

Section PassFacts.
Context (constants : Constants).

Local Abbreviation contact := (Model.contact constants).
Local Abbreviation is_vulnerable := (Cell.is_vulnerable constants).
Local Abbreviation is_infected := (Cell.is_infected constants).
Local Abbreviation is_immune := (Cell.is_immune constants).
Local Abbreviation contract_disease := (Cell.contract_disease constants).

(** Two Cells that can take part in a transmission, one of them
    infected: after [contact_with] both are infected. *)
Lemma contact_with_infects (a b : Cell.t) :
  is_infected a = true \/ is_infected b = true ->
  is_vulnerable a = true \/ is_infected a = true ->
  is_vulnerable b = true \/ is_infected b = true ->
  is_infected (fst (Cell.contact_with constants a b)) = true /\
  is_infected (snd (Cell.contact_with constants a b)) = true.
Proof.
  unfold Cell.contact_with.
  destruct (is_vulnerable a) eqn:Va, (is_infected a) eqn:Ia,
    (is_vulnerable b) eqn:Vb, (is_infected b) eqn:Ib; cbn [andb orb fst snd];
    rewrite ?is_infected_contract; intros [?|?] [?|?] [?|?];
    try discriminate; auto.
Qed.

Lemma contact_infects (population : list Cell.t) (i j : nat) (a b : Cell.t) :
  i <> j ->
  population !! i = Some a -> population !! j = Some b ->
  within_radius constants a b = true ->
  is_infected a = true \/ is_infected b = true ->
  is_vulnerable a = true \/ is_infected a = true ->
  is_vulnerable b = true \/ is_infected b = true ->
  exists a' b',
    contact population i j !! i = Some a' /\
    contact population i j !! j = Some b' /\
    is_infected a' = true /\ is_infected b' = true.
Proof.
  intros Nij Hi Hj Hr H1 H2 H3.
  destruct (contact_with_infects a b H1 H2 H3) as [Ia Ib].
  unfold Model.contact. rewrite Hi, Hj. cbv zeta.
  unfold within_radius in Hr. rewrite Hr.
  destruct (Cell.contact_with constants a b) as [a' b']. cbn in Ia, Ib.
  pose proof (lookup_lt_Some _ _ _ Hi) as Li.
  pose proof (lookup_lt_Some _ _ _ Hj) as Lj.
  exists a', b'. repeat split; try assumption.
  - rewrite list_lookup_insert_ne by congruence.
    apply list_lookup_insert_eq. exact Li.
  - apply list_lookup_insert_eq. rewrite length_insert. exact Lj.
Qed.

(** A pass that visits the pair [(i, j)] at some point, whatever else it
    visits and in whatever order: an infected and a vulnerable Cell
    within the radius are both infected at the end. *)
Lemma check_pairs_infects (ps : list (nat * nat)) (population : list Cell.t)
    (i j : nat) (a b : Cell.t) :
  In (i, j) ps -> i <> j ->
  population !! i = Some a -> population !! j = Some b ->
  within_radius constants a b = true ->
  (is_infected a = true /\ is_vulnerable b = true) \/
  (is_vulnerable a = true /\ is_infected b = true) ->
  exists a' b',
    check_pairs constants ps population !! i = Some a' /\
    check_pairs constants ps population !! j = Some b' /\
    is_infected a' = true /\ is_infected b' = true.
Proof.
  intros Hin Nij Hi Hj Hr Hab.
  destruct (in_split _ _ Hin) as (ps1 & ps2 & ->).
  rewrite check_pairs_app, check_pairs_cons. cbn [fst snd].
  destruct (check_pairs_lookup constants ps1 _ _ _ Hi) as (a1 & Hi1 & Aa).
  destruct (check_pairs_lookup constants ps1 _ _ _ Hj) as (b1 & Hj1 & Ab).
  destruct (after_contacts_location _ _ _ Aa) as [La _].
  destruct (after_contacts_location _ _ _ Ab) as [Lb _].
  assert (Hr1 : within_radius constants a1 b1 = true).
  { unfold within_radius in *. rewrite La, Lb. exact Hr. }
  assert (H1 : is_infected a1 = true \/ is_infected b1 = true).
  { destruct Hab as [[Ia _]|[_ Ib]];
      [left | right]; eapply after_contacts_infected; eassumption. }
  assert (H2 : is_vulnerable a1 = true \/ is_infected a1 = true).
  { apply (after_contacts_prone _ _ _ Aa). destruct Hab as [[? _]|[? _]]; auto. }
  assert (H3 : is_vulnerable b1 = true \/ is_infected b1 = true).
  { apply (after_contacts_prone _ _ _ Ab). destruct Hab as [[_ ?]|[_ ?]]; auto. }
  destruct (contact_infects _ i j a1 b1 Nij Hi1 Hj1 Hr1 H1 H2 H3)
    as (a2 & b2 & Hi2 & Hj2 & Ia2 & Ib2).
  destruct (check_pairs_lookup constants ps2 _ _ _ Hi2) as (a3 & Hi3 & Aa3).
  destruct (check_pairs_lookup constants ps2 _ _ _ Hj2) as (b3 & Hj3 & Ab3).
  exists a3, b3. repeat split; try assumption;
    eapply after_contacts_infected; eassumption.
Qed.

(** Without an infected Cell nothing happens. *)
Lemma contact_idle (population : list Cell.t) (i j : nat) :
  Forall (fun c => is_infected c = false) population ->
  contact population i j = population.
Proof.
  intros Hall. unfold Model.contact.
  destruct (population !! i) as [one|] eqn:Hi; [|reflexivity].
  destruct (population !! j) as [two|] eqn:Hj; [|reflexivity].
  cbv zeta. destruct (float_le _ _); [|reflexivity].
  rewrite contact_with_idle.
  - rewrite (list_insert_id _ i one Hi). apply list_insert_id. exact Hj.
  - rewrite (Forall_lookup_1 _ _ _ _ Hall Hi), (Forall_lookup_1 _ _ _ _ Hall Hj).
    rewrite !andb_false_r. reflexivity.
Qed.

Lemma check_pairs_idle (ps : list (nat * nat)) (population : list Cell.t) :
  Forall (fun c => is_infected c = false) population ->
  check_pairs constants ps population = population.
Proof.
  intros Hall. induction ps as [|p ps IH]; [reflexivity|].
  rewrite check_pairs_cons, contact_idle by assumption. exact IH.
Qed.

(** The check of a pair does not depend on which index comes first. *)
Lemma contact_swap (population : list Cell.t) (i j : nat) :
  contact population j i = contact population i j.
Proof.
  unfold Model.contact.
  destruct (population !! i) as [one|] eqn:Hi,
    (population !! j) as [two|] eqn:Hj; try reflexivity.
  cbv zeta. rewrite (distance_swap (Cell.location one) (Cell.location two)).
  destruct (float_le _ _); [|reflexivity].
  rewrite (contact_with_swap constants one two).
  destruct (Cell.contact_with constants one two) as [one' two'] eqn:E.
  cbn [fst snd].
  destruct (decide (i = j)) as [->|Nij].
  - assert (one = two) as -> by congruence.
    destruct (contact_with_cases constants two two) as [E'|[E' _]];
      rewrite E' in E; injection E as <- <-; reflexivity.
  - apply list_insert_insert_ne. congruence.
Qed.

Lemma check_pairs_flip (ps qs : list (nat * nat)) (population : list Cell.t) :
  Forall2 (fun p q => q = p \/ q = (snd p, fst p)) ps qs ->
  check_pairs constants qs population = check_pairs constants ps population.
Proof.
  intros H. revert population.
  induction H as [|p q ps qs Hpq _ IH]; intros population; [reflexivity|].
  rewrite !check_pairs_cons, IH.
  destruct Hpq as [->| ->]; [reflexivity|]. cbn [fst snd].
  rewrite contact_swap. reflexivity.
Qed.

(** The two nested loops go through [population_order]. *)
Lemma fold_left_map_pairs (cell_one : nat) (cell_twos : list nat)
    (population : list Cell.t) :
  fold_left (fun population cell_two => contact population cell_one cell_two)
            cell_twos population
  = check_pairs constants (map (pair cell_one) cell_twos) population.
Proof.
  revert population. induction cell_twos as [|k ks IH]; intros population;
    [reflexivity|]. cbn [map fold_left]. rewrite check_pairs_cons. apply IH.
Qed.

Lemma outer_loop_pairs (n : nat) (cell_ones : list nat) (population : list Cell.t) :
  length population = n ->
  fold_left
    (fun population cell_one =>
       fold_left (fun population cell_two => contact population cell_one cell_two)
                 (range (cell_one + 1) (length population)) population)
    cell_ones population
  = check_pairs constants
      (flat_map (fun cell_one => map (pair cell_one) (range (cell_one + 1) n))
                cell_ones)
      population.
Proof.
  revert population. induction cell_ones as [|c cs IH]; intros population Hn;
    [reflexivity|].
  cbn [fold_left flat_map]. rewrite check_pairs_app, Hn, fold_left_map_pairs.
  apply IH. rewrite check_pairs_length. exact Hn.
Qed.

Lemma contacts_pass_pairs (population : list Cell.t) :
  Model.contacts_pass constants population
  = check_pairs constants (population_order (length population)) population.
Proof. apply outer_loop_pairs. reflexivity. Qed.

Lemma in_population_order (n i j : nat) :
  In (i, j) (population_order n) <-> (i < j < n)%nat.
Proof.
  unfold population_order, range. rewrite in_flat_map. split.
  - intros (c & Hc & Hin). apply in_map_iff in Hin as (k & E & Hk).
    injection E as <- <-. apply in_seq in Hc. apply in_seq in Hk. lia.
  - intros H. exists i. split; [apply in_seq; lia|].
    apply in_map_iff. exists j. split; [reflexivity | apply in_seq; lia].
Qed.

Lemma contacts_pass_length (population : list Cell.t) :
  length (Model.contacts_pass constants population) = length population.
Proof. rewrite contacts_pass_pairs. apply check_pairs_length. Qed.

Lemma contacts_pass_lookup (population : list Cell.t) (k : nat) (c : Cell.t) :
  population !! k = Some c ->
  exists c', Model.contacts_pass constants population !! k = Some c'
             /\ after_contacts constants c c'.
Proof. rewrite contacts_pass_pairs. apply check_pairs_lookup. Qed.

End PassFacts.

(** ** [Model.check_contacts] *)

(** C1, as it holds. Constants: the vulnerable and the immune value lie
    below the infection threshold and differ. For every pass of
    [check_contacts]:
    - two distinct Cells within the contact radius at the start of the
      pass, one infected and the other vulnerable, are both infected at
      the end of the pass;
    - the contact of two vulnerable Cells changes neither of them, and a
      pass over a population without an infected Cell changes nothing;
    - the contact of an immune Cell with any Cell changes neither of
      them, a pass over a population of two Cells one of which is immune
      changes nothing, and in any population an immune Cell comes out of
      the pass unchanged. *)
Theorem check_contacts_effects (constants : Constants) (m : Model.t) :
  VULNERABLE constants < INFECTED constants ->
  IMMUNE constants < INFECTED constants ->
  IMMUNE constants <> VULNERABLE constants ->
  let before := Model.population m in
  let after := Model.population (Model.check_contacts constants m) in
  (forall (i j : nat) (a b : Cell.t),
     i <> j -> before !! i = Some a -> before !! j = Some b ->
     within_radius constants a b = true ->
     Cell.is_infected constants a = true ->
     Cell.is_vulnerable constants b = true ->
     exists a' b',
       after !! i = Some a' /\ after !! j = Some b' /\
       Cell.is_infected constants a' = true /\
       Cell.is_infected constants b' = true) /\
  (forall a b : Cell.t,
     Cell.is_vulnerable constants a = true ->
     Cell.is_vulnerable constants b = true ->
     Cell.contact_with constants a b = (a, b)) /\
  (Forall (fun c => Cell.is_infected constants c = false) before ->
   after = before) /\
  (forall a b : Cell.t,
     Cell.is_immune constants a = true \/ Cell.is_immune constants b = true ->
     Cell.contact_with constants a b = (a, b) /\
     Model.contacts_pass constants [a; b] = [a; b]) /\
  (forall (i : nat) (a : Cell.t),
     before !! i = Some a -> Cell.is_immune constants a = true ->
     after !! i = Some a).
Proof.
  intros HV HM HMV before after.
  assert (Hvul : forall c, Cell.is_vulnerable constants c = true ->
                           Cell.is_infected constants c = false).
  { intros c Hc. apply is_vulnerable_spec in Hc. apply is_infected_false. lia. }
  assert (Himm : forall c, Cell.is_immune constants c = true ->
                           Cell.is_infected constants c = false
                           /\ Cell.is_vulnerable constants c = false).
  { intros c Hc. apply is_immune_spec in Hc. split.
    - apply is_infected_false. lia.
    - apply is_vulnerable_false. congruence. }
  assert (Hidle : forall a b,
             Cell.is_immune constants a = true \/ Cell.is_immune constants b = true ->
             Cell.contact_with constants a b = (a, b)).
  { intros a b [H|H]; destruct (Himm _ H) as [Hi Hv];
      apply contact_with_idle; rewrite Hi, Hv, ?andb_false_r; reflexivity. }
  subst after. unfold Model.check_contacts. cbn [Model.population Model.set_population].
  fold before. repeat apply conj.
  - intros i j a b Nij Hi Hj Hr Ia Vb. rewrite contacts_pass_pairs.
    destruct (Nat.lt_total i j) as [Lt|[E|Gt]]; [|contradiction|].
    + apply (check_pairs_infects constants _ _ i j a b); auto.
      apply in_population_order. split; [exact Lt|].
      exact (lookup_lt_Some _ _ _ Hj).
    + destruct (check_pairs_infects constants
                  (population_order (length before)) before j i b a)
        as (b' & a' & Hb' & Ha' & Ib' & Ia'); auto.
      * apply in_population_order. split; [exact Gt|].
        exact (lookup_lt_Some _ _ _ Hi).
      * rewrite within_radius_swap. exact Hr.
      * exists a', b'. auto.
  - intros a b Va Vb. apply contact_with_idle.
    rewrite (Hvul _ Va), (Hvul _ Vb), andb_false_r. reflexivity.
  - intros Hall. rewrite contacts_pass_pairs. apply check_pairs_idle. exact Hall.
  - intros a b H. split; [apply Hidle; exact H|].
    unfold Model.contacts_pass, Model.contact. cbn -[float_le].
    rewrite (Hidle a b H). destruct (float_le _ _); reflexivity.
  - intros i a Hi Ia.
    destruct (contacts_pass_lookup constants before i a Hi) as (a' & Ha' & A).
    rewrite Ha'. f_equal. eapply after_contacts_immune; eassumption.
Qed.

Lemma check_contacts_effects_witness :
  VULNERABLE sample_constants < INFECTED sample_constants /\
  IMMUNE sample_constants < INFECTED sample_constants /\
  IMMUNE sample_constants <> VULNERABLE sample_constants /\
  exists a' b',
    Model.population (Model.check_contacts sample_constants (Model.mk chain 0 1 0))
      !! 0%nat = Some a' /\
    Model.population (Model.check_contacts sample_constants (Model.mk chain 0 1 0))
      !! 1%nat = Some b' /\
    Cell.is_infected sample_constants a' = true /\
    Cell.is_infected sample_constants b' = true.
Proof.
  assert (H1 : VULNERABLE sample_constants < INFECTED sample_constants)
    by reflexivity.
  assert (H2 : IMMUNE sample_constants < INFECTED sample_constants)
    by reflexivity.
  assert (H3 : IMMUNE sample_constants <> VULNERABLE sample_constants)
    by discriminate.
  assert (N : 0%nat <> 1%nat) by discriminate.
  pose proof (check_contacts_effects sample_constants (Model.mk chain 0 1 0)
                H1 H2 H3) as (Hpair & _).
  exact (conj H1 (conj H2 (conj H3
           (Hpair 0%nat 1%nat _ _ N eq_refl eq_refl eq_refl eq_refl eq_refl)))).
Defined.

(** C1 as stated fails on populations of more than two Cells. In
    [chain] the second and third Cell are vulnerable and within the
    radius of each other at the start of the pass, and both are infected
    at its end, through the first Cell. In [immune_between] the immune
    Cell is within the radius of the infected one, whose counter goes
    from 50 back to 1 in the pass, through the third Cell. *)
Lemma check_contacts_third_cell :
  (chain !! 1%nat = Some (cell_at 10%float 0) /\
   chain !! 2%nat = Some (cell_at 20%float 0) /\
   Cell.is_vulnerable sample_constants (cell_at 10%float 0) = true /\
   Cell.is_vulnerable sample_constants (cell_at 20%float 0) = true /\
   within_radius sample_constants (cell_at 10%float 0) (cell_at 20%float 0) = true /\
   Model.population (Model.check_contacts sample_constants (Model.mk chain 0 1 0))
   = [cell_at 0%float 1; cell_at 10%float 1; cell_at 20%float 1]) /\
  (immune_between !! 0%nat = Some (cell_at 0%float (-1)) /\
   immune_between !! 1%nat = Some (cell_at 5%float 50) /\
   Cell.is_immune sample_constants (cell_at 0%float (-1)) = true /\
   Cell.is_infected sample_constants (cell_at 5%float 50) = true /\
   within_radius sample_constants (cell_at 0%float (-1)) (cell_at 5%float 50) = true /\
   Model.population
     (Model.check_contacts sample_constants (Model.mk immune_between 0 1 1))
   = [cell_at 0%float (-1); cell_at 5%float 1; cell_at 10%float 1]).
Proof. vm_compute. repeat split. Qed.

(** C4, as it holds. The pass of [check_contacts] is the visit of the
    pairs in population order. Its result does not depend on which Cell
    of a pair is [self] and which is [other]: [contact_with] has the same
    effect both ways, and visiting any list of pairs with some of them
    turned around gives the same population. And in whatever order the
    pairs are visited, an infected and a vulnerable Cell within the
    radius at the start are both infected at the end. *)
Theorem check_contacts_self_other (constants : Constants)
    (population : list Cell.t) :
  Model.contacts_pass constants population
  = check_pairs constants (population_order (length population)) population /\
  (forall a b : Cell.t,
     Cell.contact_with constants b a
     = (snd (Cell.contact_with constants a b),
        fst (Cell.contact_with constants a b))) /\
  (forall ps qs : list (nat * nat),
     Forall2 (fun p q => q = p \/ q = (snd p, fst p)) ps qs ->
     check_pairs constants qs population = check_pairs constants ps population) /\
  (forall (ps : list (nat * nat)) (i j : nat) (a b : Cell.t),
     In (i, j) ps \/ In (j, i) ps -> i <> j ->
     population !! i = Some a -> population !! j = Some b ->
     within_radius constants a b = true ->
     Cell.is_infected constants a = true ->
     Cell.is_vulnerable constants b = true ->
     exists a' b',
       check_pairs constants ps population !! i = Some a' /\
       check_pairs constants ps population !! j = Some b' /\
       Cell.is_infected constants a' = true /\
       Cell.is_infected constants b' = true).
Proof.
  repeat apply conj.
  - apply contacts_pass_pairs.
  - apply contact_with_swap.
  - intros ps qs H. apply check_pairs_flip. exact H.
  - intros ps i j a b [Hin|Hin] Nij Hi Hj Hr Ia Vb.
    + apply (check_pairs_infects constants ps population i j a b); auto.
    + destruct (check_pairs_infects constants ps population j i b a)
        as (b' & a' & Hb' & Ha' & Ib' & Ia'); auto.
      * rewrite within_radius_swap. exact Hr.
      * exists a', b'. auto.
Qed.

(** C4 as stated fails: the order of the pairs matters. On [chain], the
    population order infects all three Cells (the second one passes the
    infection on to the third); visiting the same three pairs with the
    far pair first leaves the third Cell vulnerable. *)
Lemma pair_order_changes_result :
  Permutation far_pair_first (population_order (length chain)) /\
  map Cell.sickness (Model.contacts_pass sample_constants chain) = [1; 1; 1] /\
  map Cell.sickness (check_pairs sample_constants far_pair_first chain) = [1; 1; 0].
Proof.
  split; [|split; vm_compute; reflexivity].
  apply (Permutation_cons_append [(0%nat, 1%nat); (0%nat, 2%nat)] (1%nat, 2%nat)).
Qed.

(** ** [Model.__init__] *)

Section InitFacts.
Context (constants : Constants) (env : Env).

(** The creation loop appends [n] Cells, all of them vulnerable. *)
Lemma create_cells_spec (speed : float) (n : nat) (population : list Cell.t)
    (seed : nat) :
  exists news : list Cell.t,
    fst (Model.create_cells constants env speed n population seed)
    = population ++ news /\
    length news = n /\
    Forall (fun c => Cell.sickness c = VULNERABLE constants) news.
Proof.
  revert population seed. induction n as [|n IH]; intros population seed.
  - exists []. cbn. rewrite app_nil_r. auto.
  - cbn [Model.create_cells]. unfold rand_bind at 1.
    destruct (Model.random_location constants env seed) as [start_loc seed1].
    unfold rand_bind at 1.
    destruct (Model.random_direction env speed seed1) as [start_dir seed2].
    destruct (IH (population ++ [Cell.init constants start_loc start_dir]) seed2)
      as (news & E & L & F).
    exists (Cell.init constants start_loc start_dir :: news).
    rewrite E, <- app_assoc. cbn. repeat split; auto.
Qed.

(** A loop that calls [f] on the Cells at the indices [lo], ..., [lo +
    len - 1]. *)
Lemma alter_loop_lookup (f : Cell.t -> Cell.t) (len lo : nat)
    (population : list Cell.t) (k : nat) :
  fold_left (fun population i => alter f i population) (seq lo len) population !! k
  = if ((lo <=? k)%nat && (k <? lo + len)%nat)%bool
    then f <$> population !! k else population !! k.
Proof.
  revert lo population. induction len as [|len IH]; intros lo population.
  - cbn [seq fold_left].
    replace (k <? lo + 0)%nat with (k <? lo)%nat by (f_equal; lia).
    destruct (Nat.leb_spec lo k), (Nat.ltb_spec k lo); try lia; reflexivity.
  - cbn [seq fold_left]. rewrite IH, list_lookup_alter.
    destruct (decide (lo = k)) as [->|N].
    + destruct (Nat.leb_spec (S k) k); [lia|].
      rewrite Nat.leb_refl. cbn [andb].
      destruct (Nat.ltb_spec k (k + S len)); [reflexivity | lia].
    + destruct (Nat.leb_spec (S lo) k), (Nat.leb_spec lo k); try lia;
        cbn [andb]; try reflexivity.
      replace (lo + S len)%nat with (S lo + len)%nat by lia. reflexivity.
Qed.

Lemma alter_loop_length (f : Cell.t -> Cell.t) (indices : list nat)
    (population : list Cell.t) :
  length (fold_left (fun population i => alter f i population) indices population)
  = length population.
Proof.
  revert population. induction indices as [|i l IH]; intros population;
    [reflexivity|]. cbn [fold_left]. rewrite IH. apply length_alter.
Qed.

(** The three checks of the constructor. *)
Lemma init_raises (seed : nat) (cells : Z) (speed : float) (inf imm : Z) :
  inf <= 0 \/ imm < 0 \/ inf + imm >= cells ->
  exists msg, Model.init constants env seed cells speed inf imm
              = Raise (ValueError msg).
Proof.
  intros H. unfold Model.init.
  destruct (Z.leb_spec inf 0); [eauto|].
  destruct (Z.ltb_spec imm 0); [eauto|].
  destruct (Z.geb_spec (inf + imm) cells); [eauto|]. lia.
Qed.

Lemma init_returns (seed : nat) (cells : Z) (speed : float) (inf imm : Z) :
  0 < inf -> 0 <= imm -> inf + imm < cells ->
  exists population,
    Model.init constants env seed cells speed inf imm
    = Return (Model.mk population 0 inf imm).
Proof.
  intros H1 H2 H3. unfold Model.init.
  destruct (Z.leb_spec inf 0); [lia|].
  destruct (Z.ltb_spec imm 0); [lia|].
  destruct (Z.geb_spec (inf + imm) cells); [lia|]. eauto.
Qed.

Lemma init_inv (seed : nat) (cells : Z) (speed : float) (inf imm : Z)
    (m : Model.t) :
  Model.init constants env seed cells speed inf imm = Return m ->
  0 < inf /\ 0 <= imm /\ inf + imm < cells.
Proof.
  intros E.
  destruct (Z.le_gt_cases inf 0) as [H|H1];
    [destruct (init_raises seed cells speed inf imm) as [msg R]; auto; congruence|].
  destruct (Z.lt_ge_cases imm 0) as [H|H2];
    [destruct (init_raises seed cells speed inf imm) as [msg R]; auto; congruence|].
  destruct (Z.lt_ge_cases (inf + imm) cells) as [H3|H]; [auto|].
  destruct (init_raises seed cells speed inf imm) as [msg R];
    [right; right; lia | congruence].
Qed.

(** The population a successful constructor leaves. *)
Lemma init_population (seed : nat) (cells : Z) (speed : float) (inf imm : Z)
    (m : Model.t) :
  Model.init constants env seed cells speed inf imm = Return m ->
  Model.time m = 0 /\
  Model.initial_infections m = inf /\
  Model.initial_immunities m = imm /\
  length (Model.population m) = Z.to_nat cells /\
  (forall (k : nat) (c : Cell.t),
     Model.population m !! k = Some c ->
     Cell.sickness c
     = if Z.of_nat k <? inf then INFECTED constants
       else if Z.of_nat k <? inf + imm then IMMUNE constants
       else VULNERABLE constants).
Proof.
  intros E. destruct (init_inv _ _ _ _ _ _ E) as (H1 & H2 & H3).
  unfold Model.init in E.
  destruct (Z.leb_spec inf 0); [lia|].
  destruct (Z.ltb_spec imm 0); [lia|].
  destruct (Z.geb_spec (inf + imm) cells); [lia|].
  injection E as <-. cbn [Model.time Model.initial_infections
                          Model.initial_immunities Model.population].
  destruct (create_cells_spec speed (Z.to_nat cells) [] seed)
    as (news & -> & L & F). cbn [app].
  repeat split.
  - rewrite !alter_loop_length. exact L.
  - intros k c. unfold range. rewrite !alter_loop_lookup.
    intros Hk.
    assert (Hnew : exists c0, news !! k = Some c0
                              /\ Cell.sickness c0 = VULNERABLE constants).
    { destruct (news !! k) as [c0|] eqn:Hn.
      - exists c0. split; [reflexivity|]. exact (Forall_lookup_1 _ _ _ _ F Hn).
      - destruct (_ && _)%bool in Hk; destruct (_ && _)%bool in Hk; discriminate. }
    destruct Hnew as (c0 & Hn & Hs). rewrite Hn in Hk.
    destruct (Z.ltb_spec (Z.of_nat k) inf) as [Lk|Lk].
    + destruct (Nat.leb_spec (Z.to_nat inf) k); [lia|]. cbn [andb] in Hk.
      destruct (Nat.ltb_spec k (0 + (Z.to_nat inf - 0))); [|lia].
      cbn in Hk. injection Hk as <-. reflexivity.
    + destruct (Nat.leb_spec (Z.to_nat inf) k); [|lia]. cbn [andb] in Hk.
      destruct (Nat.ltb_spec k (0 + (Z.to_nat inf - 0))); [lia|].
      rewrite andb_false_r in Hk.
      destruct (Z.ltb_spec (Z.of_nat k) (inf + imm)) as [Lk'|Lk'].
      * destruct (Nat.ltb_spec k (Z.to_nat inf
                                  + (Z.to_nat (inf + imm) - Z.to_nat inf)));
          [|lia].
        cbn in Hk. injection Hk as <-. reflexivity.
      * destruct (Nat.ltb_spec k (Z.to_nat inf
                                  + (Z.to_nat (inf + imm) - Z.to_nat inf)));
          [lia|].
        cbn in Hk. injection Hk as <-. exact Hs.
Qed.

End InitFacts.

(** C5. The constructor raises (a [ValueError], the parameter-out-of-range
    error of this code) exactly when [initial_infections <= 0], or
    [initial_immunities < 0], or [initial_infections + initial_immunities
    >= cells], and returns a Model exactly otherwise, so a failure leaves
    no Model. It raises for 0 infections, for -1 immunities and when the
    two counts add up to the population size; it succeeds when they add
    up to the population size minus one. *)
Theorem init_raises_iff (constants : Constants) (env : Env) (seed : nat)
    (cells : Z) (speed : float) (initial_infections initial_immunities : Z) :
  ((exists msg,
      Model.init constants env seed cells speed initial_infections
        initial_immunities = Raise (ValueError msg))
   <-> initial_infections <= 0 \/ initial_immunities < 0
       \/ initial_infections + initial_immunities >= cells) /\
  ((exists m,
      Model.init constants env seed cells speed initial_infections
        initial_immunities = Return m)
   <-> 0 < initial_infections /\ 0 <= initial_immunities
       /\ initial_infections + initial_immunities < cells) /\
  (exists msg,
     Model.init constants env seed cells speed 0 initial_immunities
     = Raise (ValueError msg)) /\
  (exists msg,
     Model.init constants env seed cells speed initial_infections (-1)
     = Raise (ValueError msg)) /\
  (exists msg,
     Model.init constants env seed (initial_infections + initial_immunities)
       speed initial_infections initial_immunities
     = Raise (ValueError msg)) /\
  (0 < initial_infections -> 0 <= initial_immunities ->
   exists m,
     Model.init constants env seed (initial_infections + initial_immunities + 1)
       speed initial_infections initial_immunities
     = Return m).
Proof.
  repeat apply conj.
  - intros [msg E].
    destruct (Z.le_gt_cases initial_infections 0); [auto|].
    destruct (Z.lt_ge_cases initial_immunities 0); [auto|].
    destruct (Z.lt_ge_cases (initial_infections + initial_immunities) cells);
      [|right; right; lia].
    destruct (init_returns constants env seed cells speed initial_infections
                initial_immunities) as [p R]; try assumption. congruence.
  - apply init_raises.
  - intros [m E]. eapply init_inv. exact E.
  - intros (H1 & H2 & H3).
    destruct (init_returns constants env seed cells speed initial_infections
                initial_immunities H1 H2 H3) as [p R]. eauto.
  - apply init_raises. left. lia.
  - apply init_raises. right. left. lia.
  - apply init_raises. right. right. lia.
  - intros H1 H2.
    destruct (init_returns constants env seed
                (initial_infections + initial_immunities + 1) speed
                initial_infections initial_immunities) as [p R]; try lia. eauto.
Qed.

Lemma init_raises_iff_witness :
  0 < 1 /\ 0 <= 1 /\
  exists m, Model.init sample_constants sample_env 0 (1 + 1 + 1) 0%float 1 1
            = Return m.
Proof.
  assert (H1 : 0 < 1) by reflexivity.
  assert (H2 : 0 <= 1) by discriminate.
  pose proof (init_raises_iff sample_constants sample_env 0 3 0%float 1 1)
    as (_ & _ & _ & _ & _ & Hok).
  exact (conj H1 (conj H2 (Hok H1 H2))).
Defined.

(** C9. After a successful construction the clock is 0, the population
    has [cells] Cells, the first [initial_infections] of them in creation
    order are at the infection start value, the next
    [initial_immunities] at the immune value and all the others at the
    vulnerable value. With the vulnerable and the immune value below the
    infection threshold and distinct, these three groups are exactly the
    infected, the immune and the vulnerable Cells. *)
Theorem init_assigns_health (constants : Constants) (env : Env) (seed : nat)
    (cells : Z) (speed : float) (initial_infections initial_immunities : Z)
    (m : Model.t) :
  Model.init constants env seed cells speed initial_infections
    initial_immunities = Return m ->
  Model.time m = 0 /\
  length (Model.population m) = Z.to_nat cells /\
  (forall (k : nat) (c : Cell.t),
     Model.population m !! k = Some c ->
     Cell.sickness c
     = if Z.of_nat k <? initial_infections then INFECTED constants
       else if Z.of_nat k <? initial_infections + initial_immunities
            then IMMUNE constants
            else VULNERABLE constants) /\
  (VULNERABLE constants < INFECTED constants ->
   IMMUNE constants < INFECTED constants ->
   IMMUNE constants <> VULNERABLE constants ->
   forall (k : nat) (c : Cell.t),
     Model.population m !! k = Some c ->
     (Cell.is_infected constants c = true
      <-> Z.of_nat k < initial_infections) /\
     (Cell.is_immune constants c = true
      <-> initial_infections <= Z.of_nat k
          < initial_infections + initial_immunities) /\
     (Cell.is_vulnerable constants c = true
      <-> initial_infections + initial_immunities <= Z.of_nat k)).
Proof.
  intros E.
  destruct (init_population constants env _ _ _ _ _ _ E) as (Ht & _ & _ & Hl & Hs).
  repeat apply conj; try assumption.
  intros HV HM HMV k c Hk. specialize (Hs k c Hk).
  destruct (init_inv constants env _ _ _ _ _ _ E) as (P1 & P2 & P3).
  rewrite is_infected_spec, is_immune_spec, is_vulnerable_spec, Hs.
  destruct (Z.ltb_spec (Z.of_nat k) initial_infections);
    [|destruct (Z.ltb_spec (Z.of_nat k) (initial_infections + initial_immunities))];
    repeat split; intros; lia.
Qed.

Lemma init_assigns_health_witness :
  exists m : Model.t,
    Model.init sample_constants sample_env 0 4 0%float 1 2 = Return m /\
    Model.time m = 0 /\
    length (Model.population m) = 4%nat.
Proof.
  destruct (Model.init sample_constants sample_env 0 4 0%float 1 2)
    as [m|e] eqn:E.
  - exists m.
    pose proof (init_assigns_health sample_constants sample_env 0 4 0%float
                  1 2 m E) as (Ht & Hl & _).
    exact (conj eq_refl (conj Ht Hl)).
  - vm_compute in E. discriminate E.
Defined.

(** ** [Model.is_complete] *)

Section CompleteFacts.
Context (constants : Constants).

Lemma is_complete_fold (population : list Cell.t) (complete_bool : bool) :
  fold_left
    (fun complete_bool cell =>
       if Cell.is_infected constants cell then false else complete_bool)
    population complete_bool
  = (complete_bool && forallb (fun c => negb (Cell.is_infected constants c)) population)%bool.
Proof.
  revert complete_bool. induction population as [|c l IH]; intros b.
  - cbn. rewrite andb_true_r. reflexivity.
  - cbn [fold_left forallb]. rewrite IH.
    destruct (Cell.is_infected constants c), b; reflexivity.
Qed.

Lemma is_complete_forallb (m : Model.t) :
  Model.is_complete constants m
  = forallb (fun c => negb (Cell.is_infected constants c)) (Model.population m).
Proof. unfold Model.is_complete. apply is_complete_fold. Qed.

Lemma forallb_false_infected (population : list Cell.t) :
  forallb (fun c => negb (Cell.is_infected constants c)) population = false ->
  exists c, In c population /\ Cell.is_infected constants c = true.
Proof.
  induction population as [|c l IH]; cbn [forallb]; [discriminate|].
  destruct (Cell.is_infected constants c) eqn:Ic; cbn [negb andb].
  - intros _. exists c. split; [left; reflexivity | exact Ic].
  - intros H. destruct (IH H) as (x & Hx & Ix).
    exists x. split; [right; exact Hx | exact Ix].
Qed.

End CompleteFacts.

(** C8. [is_complete] returns true exactly when no Cell of the
    population is infected, and false exactly when one is. With the
    vulnerable and the immune value below the infection threshold, a
    population of vulnerable and immune Cells, in any mix, is complete. *)
Theorem is_complete_iff (constants : Constants) (m : Model.t) :
  (Model.is_complete constants m = true
   <-> forall c, In c (Model.population m) ->
                 Cell.is_infected constants c = false) /\
  (Model.is_complete constants m = false
   <-> exists c, In c (Model.population m)
                 /\ Cell.is_infected constants c = true) /\
  (VULNERABLE constants < INFECTED constants ->
   IMMUNE constants < INFECTED constants ->
   (forall c, In c (Model.population m) ->
              Cell.is_vulnerable constants c = true
              \/ Cell.is_immune constants c = true) ->
   Model.is_complete constants m = true).
Proof.
  assert (Htrue : Model.is_complete constants m = true
                  <-> forall c, In c (Model.population m) ->
                                Cell.is_infected constants c = false).
  { rewrite is_complete_forallb, forallb_forall. split; intros H c Hc.
    - apply negb_true_iff. auto.
    - apply negb_true_iff. auto. }
  split; [exact Htrue | split; [split|]].
  - intros H. rewrite is_complete_forallb in H.
    apply forallb_false_infected. exact H.
  - intros (c & Hc & Ic). apply not_true_iff_false. intros H.
    rewrite Htrue in H. rewrite (H c Hc) in Ic. discriminate.
  - intros HV HM Hall. apply Htrue. intros c Hc. apply is_infected_false.
    destruct (Hall c Hc) as [H|H].
    + apply is_vulnerable_spec in H. lia.
    + apply is_immune_spec in H. lia.
Qed.

Lemma is_complete_iff_witness :
  VULNERABLE sample_constants < INFECTED sample_constants /\
  IMMUNE sample_constants < INFECTED sample_constants /\
  Model.is_complete sample_constants
    (Model.mk [cell_at 0%float 0; cell_at 5%float (-1); cell_at 9%float 0] 7 1 1)
  = true.
Proof.
  assert (H1 : VULNERABLE sample_constants < INFECTED sample_constants)
    by reflexivity.
  assert (H2 : IMMUNE sample_constants < INFECTED sample_constants)
    by reflexivity.
  refine (conj H1 (conj H2
            (proj2 (proj2 (is_complete_iff sample_constants _)) H1 H2 _))).
  intros c [<-|[<-|[<-|[]]]]; [left | right | left]; reflexivity.
Defined.

(** ** [Model.tick] *)

Section TickFacts.
Context (constants : Constants).

(** What [Model.tick] does to one Cell before the contacts. *)
Local Abbreviation advance :=
  (fun cell => Model.enforce_bounds constants (Cell.tick constants cell)).

Lemma lookup_map {A B : Type} (f : A -> B) (l : list A) (i : nat) :
  map f l !! i = f <$> l !! i.
Proof. revert i. induction l as [|a l IH]; intros [|i]; cbn; auto. Qed.

Lemma tick_population (m : Model.t) :
  Model.population (Model.tick constants m)
  = Model.contacts_pass constants (map advance (Model.population m)).
Proof. reflexivity. Qed.


Lemma ticks_S (n : nat) (m : Model.t) :
  ticks constants (S n) m = Model.tick constants (ticks constants n m).
Proof. reflexivity. Qed.



(** One step, seen from one Cell: it is advanced, then the pass may call
    [contract_disease] on it. *)
Lemma tick_lookup (m : Model.t) (i : nat) (c : Cell.t) :
  Model.population m !! i = Some c ->
  exists c', Model.population (Model.tick constants m) !! i = Some c'
             /\ after_contacts constants (advance c) c'.
Proof.
  intros Hi. rewrite tick_population. apply contacts_pass_lookup.
  rewrite lookup_map, Hi. reflexivity.
Qed.

Lemma tick_lookup_inv (m : Model.t) (i : nat) (c' : Cell.t) :
  Model.population (Model.tick constants m) !! i = Some c' ->
  exists c, Model.population m !! i = Some c
            /\ after_contacts constants (advance c) c'.
Proof.
  intros Hi'. destruct (Model.population m !! i) as [c|] eqn:Hi.
  - destruct (tick_lookup m i c Hi) as (c2 & H2 & A).
    exists c. split; [reflexivity|]. congruence.
  - apply lookup_ge_None in Hi. apply lookup_lt_Some in Hi'.
    rewrite tick_population, contacts_pass_length, length_map in Hi'. lia.
Qed.

(** The tier is read off [sickness] alone. *)
Lemma tier_sickness (c d : Cell.t) :
  Cell.sickness c = Cell.sickness d -> tier constants c = tier constants d.
Proof.
  unfold tier, Cell.is_vulnerable, Cell.is_immune. intros ->. reflexivity.
Qed.

Lemma sickness_advance (c : Cell.t) :
  Cell.sickness (advance c) = Cell.sickness (Cell.tick constants c).
Proof. apply enforce_bounds_sickness. Qed.

Section Ordered.
Hypothesis vulnerable_below : VULNERABLE constants < INFECTED constants.
Hypothesis immune_below : IMMUNE constants < INFECTED constants.
Hypothesis immune_apart : IMMUNE constants <> VULNERABLE constants.

Lemma tier_cases (c : Cell.t) :
  (Cell.sickness c = VULNERABLE constants /\ tier constants c = Vulnerable) \/
  (Cell.sickness c = IMMUNE constants /\ tier constants c = Immune) \/
  (Cell.sickness c <> VULNERABLE constants /\
   Cell.sickness c <> IMMUNE constants /\ tier constants c = Infected).
Proof.
  unfold tier, Cell.is_vulnerable, Cell.is_immune.
  destruct (Z.eqb_spec (Cell.sickness c) (VULNERABLE constants)); [auto|].
  destruct (Z.eqb_spec (Cell.sickness c) (IMMUNE constants)); auto.
Qed.

Lemma tick_immune (c : Cell.t) :
  Cell.sickness c = IMMUNE constants ->
  Cell.sickness (Cell.tick constants c) = IMMUNE constants.
Proof.
  intros E. destruct (Z.lt_ge_cases (Cell.sickness c) 90) as [L|G].
  - rewrite sickness_tick_below by assumption.
    rewrite (proj2 (is_infected_false constants c)) by lia. exact E.
  - rewrite sickness_tick_ceiling by assumption.
    destruct (Z.geb_spec (IMMUNE constants) (INFECTED constants)); [lia|reflexivity].
Qed.

(** [Cell.tick] never lowers the tier. *)
Lemma tier_tick (c : Cell.t) :
  (tier_rank (tier constants c)
   <= tier_rank (tier constants (Cell.tick constants c)))%nat.
Proof.
  destruct (Z.lt_ge_cases (Cell.sickness c) 90) as [L|G].
  - pose proof (sickness_tick_below constants c L) as E.
    destruct (Cell.is_infected constants c) eqn:Ic.
    + apply is_infected_spec in Ic.
      destruct (tier_cases c) as [[? ->]|[[? ->]|(_ & _ & ->)]]; try lia.
      destruct (tier_cases (Cell.tick constants c))
        as [[? ->]|[[? ->]|(_ & _ & ->)]]; cbn; lia.
    + rewrite (tier_sickness _ _ E). lia.
  - assert (E : Cell.sickness (Cell.tick constants c) = IMMUNE constants).
    { rewrite sickness_tick_ceiling by assumption.
      destruct (Z.geb_spec (IMMUNE constants) (INFECTED constants));
        [lia|reflexivity]. }
    destruct (tier_cases (Cell.tick constants c))
      as [[? ->]|[[? ->]|(_ & ? & ->)]]; try congruence.
    destruct (tier constants c); cbn; lia.
Qed.

(** Neither does a pass. *)
Lemma tier_after_contacts (c c' : Cell.t) :
  after_contacts constants c c' ->
  (tier_rank (tier constants c) <= tier_rank (tier constants c'))%nat.
Proof.
  intros [->|[-> Hc]]; [lia|].
  assert (E : tier constants (Cell.contract_disease constants c) = Infected).
  { destruct (tier_cases (Cell.contract_disease constants c))
      as [[H ?]|[[H ?]|(_ & _ & ?)]]; [cbn in H; lia | cbn in H; lia | assumption]. }
  rewrite E.
  destruct (tier_cases c) as [[? ->]|[[Him ->]|(_ & _ & ->)]]; cbn; try lia.
  destruct Hc as [Hv|Hi].
  - apply is_vulnerable_spec in Hv. congruence.
  - apply is_infected_spec in Hi. lia.
Qed.

(** One step of the Model, seen from one Cell. *)
Lemma tier_model_tick (m : Model.t) (i : nat) (c : Cell.t) :
  Model.population m !! i = Some c ->
  exists c',
    Model.population (Model.tick constants m) !! i = Some c' /\
    (tier_rank (tier constants c) <= tier_rank (tier constants c'))%nat /\
    (Cell.is_immune constants c = true -> Cell.sickness c' = Cell.sickness c).
Proof.
  intros Hi. destruct (tick_lookup m i c Hi) as (c' & Hi' & A).
  exists c'. split; [exact Hi'|]. split.
  - etransitivity; [apply (tier_tick c)|].
    rewrite <- (tier_sickness _ _ (sickness_advance c)).
    apply tier_after_contacts. exact A.
  - intros Him. apply is_immune_spec in Him.
    assert (Ha : Cell.is_immune constants (advance c) = true).
    { apply is_immune_spec. rewrite sickness_advance. apply tick_immune. exact Him. }
    rewrite (after_contacts_immune constants _ _ immune_below immune_apart A Ha).
    rewrite sickness_advance, tick_immune; congruence.
Qed.

Lemma tier_model_ticks (m : Model.t) (n i : nat) (c : Cell.t) :
  Model.population m !! i = Some c ->
  exists c',
    Model.population (ticks constants n m) !! i = Some c' /\
    (tier_rank (tier constants c) <= tier_rank (tier constants c'))%nat /\
    (Cell.is_immune constants c = true -> Cell.sickness c' = Cell.sickness c).
Proof.
  intros Hi. induction n as [|n (c1 & H1 & T1 & I1)].
  - exists c. repeat split; auto.
  - rewrite ticks_S.
    destruct (tier_model_tick _ i c1 H1) as (c2 & H2 & T2 & I2).
    exists c2. split; [exact H2|]. split; [lia|].
    intros Him. rewrite I2, I1; [reflexivity | exact Him|].
    apply is_immune_spec. rewrite I1 by exact Him.
    apply is_immune_spec. exact Him.
Qed.

End Ordered.

End TickFacts.

(** ** The order of the work in [Model.tick] *)

Section OrderFacts.
Context (constants : Constants).





(** Two Cells that are not within the radius: the check does nothing. *)
Lemma contact_far (population : list Cell.t) (i j : nat) (a b : Cell.t) :
  population !! i = Some a -> population !! j = Some b ->
  within_radius constants a b = false ->
  Model.contact constants population i j = population.
Proof.
  intros Hi Hj Hr. unfold Model.contact. rewrite Hi, Hj. cbv zeta.
  unfold within_radius in Hr. rewrite Hr. reflexivity.
Qed.


End OrderFacts.



(** The order of [Model.tick] at work. In [approaching] the two Cells
    are 30 apart before the step and 10 apart after the movement: the
    vulnerable one is infected in this very step (and the counter of
    the infected one, 2 after its own tick, is back at 1). In [parting]
    they are 10 apart before the step and 30 apart after the movement:
    no infection. *)
Example tick_judges_moved_positions :
  map Cell.sickness
    (Model.population (Model.tick sample_constants (Model.mk approaching 0 1 0)))
  = [1; 1] /\
  map Cell.sickness
    (Model.population (Model.tick sample_constants (Model.mk parting 0 1 0)))
  = [2; 0].
Proof. split; vm_compute; reflexivity. Qed.

(** C3, as it holds. If the vulnerable and the immune value lie below
    the infection threshold and differ, then from every Model state,
    hence from every reachable one, and over any number of steps, the
    tier of each Cell never goes down (vulnerable, then infected, then
    immune), and a Cell that is immune keeps its health value for ever.
    Conversely, if [Model.tick] leaves the health value of every immune
    Cell alone, then the immune value lies below the infection
    threshold: the tiers are not in the numerical order Vulnerable <
    Infected range < Immune. *)
Theorem tiers_never_regress (constants : Constants) :
  (VULNERABLE constants < INFECTED constants ->
   IMMUNE constants < INFECTED constants ->
   IMMUNE constants <> VULNERABLE constants ->
   forall (m : Model.t) (n i : nat) (c : Cell.t),
     Model.population m !! i = Some c ->
     exists c',
       Model.population (ticks constants n m) !! i = Some c' /\
       (tier_rank (tier constants c) <= tier_rank (tier constants c'))%nat /\
       (Cell.is_immune constants c = true ->
        Cell.sickness c' = Cell.sickness c /\ tier constants c' = Immune)) /\
  ((forall (m : Model.t) (i : nat) (c : Cell.t),
      Model.population m !! i = Some c ->
      Cell.is_immune constants c = true ->
      exists c',
        Model.population (Model.tick constants m) !! i = Some c' /\
        Cell.sickness c' = Cell.sickness c) ->
   IMMUNE constants < INFECTED constants).
Proof.
  split.
  - intros HV HM HMV m n i c Hi.
    destruct (tier_model_ticks constants HV HM HMV m n i c Hi)
      as (c' & Hi' & T & Him).
    exists c'. split; [exact Hi'|]. split; [exact T|].
    intros Hc. specialize (Him Hc). split; [exact Him|].
    apply is_immune_spec in Hc.
    destruct (tier_cases constants c') as [[E _]|[[_ E]|(_ & E & _)]];
      [congruence | exact E | congruence].
  - intros H. destruct (Z.lt_ge_cases (IMMUNE constants) (INFECTED constants))
      as [L|G]; [exact L | exfalso].
    set (c := Cell.mk still still (IMMUNE constants)).
    destruct (H (Model.mk [c] 0 0 0) 0%nat c eq_refl) as (c' & Hc' & Sc').
    { apply is_immune_spec. reflexivity. }
    change (Some (Model.enforce_bounds constants (Cell.tick constants c)) = Some c')
      in Hc'.
    injection Hc' as <-. rewrite enforce_bounds_sickness in Sc'.
    destruct (Z.lt_ge_cases (Cell.sickness c) 90) as [L|G90].
    + rewrite sickness_tick_below in Sc' by exact L.
      rewrite (proj2 (is_infected_spec constants c)) in Sc' by (cbn; lia). lia.
    + rewrite sickness_tick_ceiling in Sc' by exact G90.
      destruct (Z.geb_spec (IMMUNE constants) (INFECTED constants));
        cbn in Sc'; lia.
Qed.

Lemma tiers_never_regress_witness :
  VULNERABLE sample_constants < INFECTED sample_constants /\
  IMMUNE sample_constants < INFECTED sample_constants /\
  IMMUNE sample_constants <> VULNERABLE sample_constants /\
  immune_between !! 0%nat = Some (cell_at 0%float (-1)) /\
  exists c',
    Model.population (ticks sample_constants 100 (Model.mk immune_between 0 1 1))
      !! 0%nat = Some c' /\
    (tier_rank (tier sample_constants (cell_at 0%float (-1)))
     <= tier_rank (tier sample_constants c'))%nat /\
    (Cell.is_immune sample_constants (cell_at 0%float (-1)) = true ->
     Cell.sickness c' = -1 /\ tier sample_constants c' = Immune).
Proof.
  assert (H1 : VULNERABLE sample_constants < INFECTED sample_constants)
    by reflexivity.
  assert (H2 : IMMUNE sample_constants < INFECTED sample_constants)
    by reflexivity.
  assert (H3 : IMMUNE sample_constants <> VULNERABLE sample_constants)
    by discriminate.
  exact (conj H1 (conj H2 (conj H3 (conj eq_refl
           (proj1 (tiers_never_regress sample_constants) H1 H2 H3
              (Model.mk immune_between 0 1 1) 100%nat 0%nat
              (cell_at 0%float (-1)) eq_refl))))).
Defined.

(** With the immune value on top, as in [immune_on_top], an immune Cell
    counts as infected: its tick takes it from 100 to 101, and the Model
    holding it is never complete. *)
Example immune_on_top_increments :
  Cell.is_immune immune_on_top (cell_at 0%float 100) = true /\
  Cell.is_infected immune_on_top (cell_at 0%float 100) = true /\
  Cell.sickness (Cell.tick immune_on_top (cell_at 0%float 100)) = 101 /\
  Model.is_complete immune_on_top (Model.mk [cell_at 0%float 100] 0 1 1) = false.
Proof. vm_compute. repeat split. Qed.

(** C3 as stated cannot hold: no choice of the constants gives both the
    numerical order Vulnerable < Infected range < Immune and an immune
    state that steps leave alone. With the immune value above the
    infection threshold, [is_infected] holds of an immune Cell, so
    [Cell.tick] increments it (and a contact may put it back to the
    infection start value): the second Cell of a Model constructed with
    one infection and one immunity is immune and has another health
    value after one step. *)
Lemma immune_above_infected_not_terminal :
  ~ exists constants : Constants,
      (VULNERABLE constants < INFECTED constants /\
       INFECTED constants < IMMUNE constants) /\
      forall (env : Env) (seed : nat) (cells : Z) (speed : float)
             (inf imm : Z) (m : Model.t) (n i : nat) (c : Cell.t),
        Model.init constants env seed cells speed inf imm = Return m ->
        Model.population (ticks constants n m) !! i = Some c ->
        Cell.is_immune constants c = true ->
        exists c',
          Model.population (ticks constants (S n) m) !! i = Some c' /\
          Cell.sickness c' = Cell.sickness c.
Proof.
  intros (constants & [HV HI] & H).
  destruct (init_returns constants sample_env 0 3 0%float 1 1)
    as [p E]; try lia.
  destruct (init_population constants sample_env _ _ _ _ _ _ E)
    as (_ & _ & _ & Hl & Hs). cbn [Model.population] in Hl, Hs.
  destruct (lookup_lt_is_Some_2 p 1) as [c Hc]; [rewrite Hl; cbn; lia|].
  pose proof (Hs 1%nat c Hc) as Sc.
  change (Cell.sickness c = IMMUNE constants) in Sc.
  destruct (H sample_env 0%nat 3 0%float 1 1 _ 0%nat 1%nat c E Hc)
    as (c' & Hc' & Sc').
  { apply is_immune_spec. exact Sc. }
  change (ticks constants 1 (Model.mk p 0 1 1))
    with (Model.tick constants (Model.mk p 0 1 1)) in Hc'.
  destruct (tick_lookup_inv constants _ _ _ Hc') as (c0 & Hc0 & A).
  cbn [Model.population] in Hc0. rewrite Hc in Hc0. injection Hc0 as <-.
  assert (Sa : Cell.sickness
                 (Model.enforce_bounds constants (Cell.tick constants c))
               = IMMUNE constants + 1).
  { rewrite enforce_bounds_sickness.
    destruct (Z.lt_ge_cases (Cell.sickness c) 90) as [L|G].
    - rewrite sickness_tick_below by assumption.
      rewrite (proj2 (is_infected_spec constants c)) by lia. lia.
    - rewrite sickness_tick_ceiling by assumption.
      destruct (Z.geb_spec (IMMUNE constants) (INFECTED constants)); lia. }
  destruct A as [->|[-> _]].
  - lia.
  - cbn in Sc'. lia.
Qed.

(** * Further properties of the code *)

(** ** [Point.add] and [Point.distance] *)

Section PointFacts.

Lemma is_finite_spec (f : float) :
  PrimFloat.is_finite f = true <-> finite_spec (Prim2SF f).
Proof.
  unfold PrimFloat.is_finite. rewrite negb_true_iff, orb_false_iff.
  fold (is_number f). rewrite is_number_spec.
  unfold PrimFloat.is_infinity.
  rewrite FloatAxioms.eqb_spec, FloatAxioms.abs_spec.
  change (Prim2SF infinity) with (S754_infinity false).
  destruct (Prim2SF f) as [s|s| |s m e]; cbn;
    intuition (discriminate || congruence).
Qed.

Lemma is_finite_number (f : float) : PrimFloat.is_finite f = true -> is_number f.
Proof.
  rewrite is_finite_spec, is_number_spec.
  destruct (Prim2SF f); cbn; intros H; try contradiction; discriminate.
Qed.

Lemma SF64add_comm (a b : spec_float) : SF64add a b = SF64add b a.
Proof.
  destruct a as [sa|sa| |sa ma ea], b as [sb|sb| |sb mb eb]; simpl;
    try reflexivity; try (destruct sa, sb; reflexivity).
  replace (IntDef.Z.min eb ea) with (IntDef.Z.min ea eb) by apply Z.min_comm.
  f_equal. apply Z.add_comm.
Qed.

Lemma float_add_comm (u v : float) : PrimFloat.add u v = PrimFloat.add v u.
Proof. apply Prim2SF_inj. rewrite !add_spec. apply SF64add_comm. Qed.

Lemma SF64sub_diag (a : spec_float) :
  finite_spec a -> SF64sub a a = S754_zero false.
Proof.
  destruct a as [s|s| |s m e]; simpl; try contradiction; intros _.
  - destruct s; reflexivity.
  - rewrite Z.sub_diag. reflexivity.
Qed.

Lemma square_diff_self (u : float) :
  PrimFloat.is_finite u = true ->
  PrimFloat.mul (PrimFloat.sub u u) (PrimFloat.sub u u) = 0%float.
Proof.
  intros H. apply is_finite_spec in H. apply Prim2SF_inj.
  rewrite FloatAxioms.mul_spec, sub_spec, (SF64sub_diag _ H). reflexivity.
Qed.

End PointFacts.

(** X1. [Point.distance] gives the same float whichever of the two
    Points is [self], for all floats, not-a-number and infinities
    included. *)
Theorem distance_symmetric (p q : Point.t) :
  Point.distance q p = Point.distance p q.
Proof. apply distance_swap. Qed.

(** X2. The distance of a Point with finite coordinates to itself is
    exactly 0. *)
Theorem distance_self_zero (p : Point.t) :
  PrimFloat.is_finite (Point.x p) = true ->
  PrimFloat.is_finite (Point.y p) = true ->
  Point.distance p p = 0%float.
Proof.
  intros Hx Hy. unfold Point.distance. cbv zeta.
  rewrite (square_diff_self _ Hx), (square_diff_self _ Hy). reflexivity.
Qed.

Lemma distance_self_zero_witness :
  PrimFloat.is_finite 203%float = true /\
  PrimFloat.is_finite 201.5%float = true /\
  Point.distance (Cell.location escaped) (Cell.location escaped) = 0%float.
Proof.
  exact (conj eq_refl (conj eq_refl
           (distance_self_zero (Cell.location escaped) eq_refl eq_refl))).
Defined.

(** X3. [Point.add] is commutative, for all floats. *)
Theorem add_commutative (p q : Point.t) : Point.add p q = Point.add q p.
Proof.
  unfold Point.add. cbv zeta.
  rewrite (float_add_comm (Point.x p)), (float_add_comm (Point.y p)).
  reflexivity.
Qed.

(** ** [Cell.color] *)

(** X4. [Cell.color] is "gray" exactly for the vulnerable Cells. When the
    immune value differs from the vulnerable one it is "green" exactly
    for the immune Cells, and when both lie below the infection
    threshold every infected Cell is "red". *)
Theorem color_tells_health (constants : Constants) (c : Cell.t) :
  (Cell.color constants c = "gray"%string
   <-> Cell.is_vulnerable constants c = true) /\
  (IMMUNE constants <> VULNERABLE constants ->
   (Cell.color constants c = "green"%string
    <-> Cell.is_immune constants c = true)) /\
  (VULNERABLE constants < INFECTED constants ->
   IMMUNE constants < INFECTED constants ->
   Cell.is_infected constants c = true ->
   Cell.color constants c = "red"%string).
Proof.
  unfold Cell.color. split; [|split].
  - destruct (Cell.is_vulnerable constants c); [tauto|].
    destruct (Cell.is_immune constants c); split; discriminate.
  - intros HMV.
    destruct (Cell.is_vulnerable constants c) eqn:Hv.
    + apply is_vulnerable_spec in Hv.
      split; [discriminate|]. intros Hi. apply is_immune_spec in Hi. congruence.
    + destruct (Cell.is_immune constants c); split; (reflexivity || discriminate).
  - intros HV HM Hi. apply is_infected_spec in Hi.
    rewrite (proj2 (is_vulnerable_false constants c)) by lia.
    rewrite (proj2 (is_immune_false constants c)) by lia. reflexivity.
Qed.

Lemma color_tells_health_witness :
  IMMUNE sample_constants <> VULNERABLE sample_constants /\
  VULNERABLE sample_constants < INFECTED sample_constants /\
  IMMUNE sample_constants < INFECTED sample_constants /\
  Cell.is_infected sample_constants (cell_at 0%float 50) = true /\
  Cell.color sample_constants (cell_at 0%float 50) = "red"%string.
Proof.
  assert (H0 : IMMUNE sample_constants <> VULNERABLE sample_constants)
    by discriminate.
  assert (H1 : VULNERABLE sample_constants < INFECTED sample_constants)
    by reflexivity.
  assert (H2 : IMMUNE sample_constants < INFECTED sample_constants)
    by reflexivity.
  exact (conj H0 (conj H1 (conj H2 (conj eq_refl
           (proj2 (proj2 (color_tells_health sample_constants
                            (cell_at 0%float 50))) H1 H2 eq_refl))))).
Defined.

(** ** More on [Model.check_contacts] *)

Section PairsFacts.

Lemma NoDup_population_row (cell_one lo len : nat) :
  NoDup (map (pair cell_one) (seq lo len)).
Proof.
  apply NoDup_fmap_2; [intros a b E; congruence | apply NoDup_seq].
Qed.

Lemma NoDup_rows (n : nat) (cell_ones : list nat) :
  NoDup cell_ones ->
  NoDup (flat_map (fun cell_one => map (pair cell_one) (range (cell_one + 1) n))
                  cell_ones).
Proof.
  induction 1 as [|c cs Hc _ IH]; cbn [flat_map]; [constructor|].
  apply NoDup_app. split; [apply NoDup_population_row|]. split; [|exact IH].
  intros [i j] Hrow Hrest.
  apply list_elem_of_In, in_map_iff in Hrow as (k & E & _).
  apply list_elem_of_In, in_flat_map in Hrest as (c' & Hc' & Hin).
  apply in_map_iff in Hin as (k' & E' & _).
  apply Hc. apply list_elem_of_In. congruence.
Qed.

Lemma length_rows (n k lo : nat) :
  (lo + k = n)%nat ->
  (2 * length (flat_map (fun cell_one => map (pair cell_one)
                                             (range (cell_one + 1) n))
                        (seq lo k))
   = k * (k - 1))%nat.
Proof.
  revert lo. induction k as [|k IH]; intros lo Hn; [reflexivity|].
  cbn [seq flat_map]. rewrite length_app, length_map. unfold range at 1.
  rewrite length_seq. specialize (IH (S lo) ltac:(lia)).
  replace (n - (lo + 1))%nat with k by lia. nia.
Qed.

End PairsFacts.

(** X5. [check_contacts] tests every unordered pair of distinct Cells
    exactly once: the pairs it goes through are the pairs [(i, j)] with
    [i < j < len(population)], none of them twice, [n (n - 1) / 2] of
    them for [n] Cells; a population of fewer than two Cells comes out
    as it went in. *)
Theorem check_contacts_visits_each_pair_once (constants : Constants)
    (population : list Cell.t) :
  let n := length population in
  Model.contacts_pass constants population
  = check_pairs constants (population_order n) population /\
  (forall i j : nat, In (i, j) (population_order n) <-> (i < j < n)%nat) /\
  NoDup (population_order n) /\
  (2 * length (population_order n) = n * (n - 1))%nat /\
  ((n <= 1)%nat -> Model.contacts_pass constants population = population).
Proof.
  intros n. split; [apply contacts_pass_pairs|].
  split; [intros i j; apply in_population_order|].
  split; [apply NoDup_rows, NoDup_seq|].
  split.
  { unfold population_order. change (range 0 n) with (seq 0 (n - 0)).
    rewrite Nat.sub_0_r. apply length_rows. lia. }
  intros Hn. rewrite contacts_pass_pairs. fold n.
  destruct (population_order n) as [|[i j] l] eqn:E; [reflexivity|].
  assert (Hin : In (i, j) (population_order n)) by (rewrite E; left; reflexivity).
  apply in_population_order in Hin. lia.
Qed.

(** X6. What a pass of [check_contacts] leaves alone. The population
    keeps its size and every Cell its position and velocity; the health
    value of a Cell is either kept or set to the infection start value,
    the latter only for a Cell that was vulnerable or infected; and an
    infected Cell is still infected after the pass. *)
Theorem check_contacts_frame (constants : Constants) (m : Model.t) :
  let before := Model.population m in
  let after := Model.population (Model.check_contacts constants m) in
  length after = length before /\
  (forall (i : nat) (c : Cell.t),
     before !! i = Some c ->
     exists c',
       after !! i = Some c' /\
       Cell.location c' = Cell.location c /\
       Cell.direction c' = Cell.direction c /\
       (Cell.sickness c' = Cell.sickness c \/
        (Cell.sickness c' = INFECTED constants /\
         (Cell.is_vulnerable constants c = true
          \/ Cell.is_infected constants c = true))) /\
       (Cell.is_infected constants c = true ->
        Cell.is_infected constants c' = true)).
Proof.
  intros before after. subst after. unfold Model.check_contacts.
  cbn [Model.population Model.set_population]. fold before.
  split; [apply contacts_pass_length|].
  intros i c Hi.
  destruct (contacts_pass_lookup constants before i c Hi) as (c' & Hi' & A).
  exists c'. split; [exact Hi'|].
  destruct (after_contacts_location constants c c' A) as [L D].
  split; [exact L|]. split; [exact D|]. split.
  - destruct A as [->|[-> Hc]]; [left; reflexivity | right; split; [reflexivity|exact Hc]].
  - apply after_contacts_infected. exact A.
Qed.

Lemma check_contacts_visits_each_pair_once_witness :
  (length [cell_at 0%float 1] <= 1)%nat /\
  Model.contacts_pass sample_constants [cell_at 0%float 1] = [cell_at 0%float 1].
Proof.
  assert (H : (length [cell_at 0%float 1] <= 1)%nat) by (apply le_n).
  pose proof (check_contacts_visits_each_pair_once sample_constants
                [cell_at 0%float 1]) as (_ & _ & _ & _ & Hsmall).
  exact (conj H (Hsmall H)).
Defined.

(** ** More on [Model.enforce_bounds] *)

Section MoreBoundsFacts.
Context (constants : Constants).

(** A Cell none of the four tests fires on is returned as it is. *)
Lemma enforce_bounds_fixed (cell : Cell.t) :
  float_gt (Point.x (Cell.location cell)) (MAX_X constants) = false ->
  float_lt (Point.x (Cell.location cell)) (MIN_X constants) = false ->
  float_gt (Point.y (Cell.location cell)) (MAX_Y constants) = false ->
  float_lt (Point.y (Cell.location cell)) (MIN_Y constants) = false ->
  Model.enforce_bounds constants cell = cell.
Proof.
  destruct cell as [[x y] [dx dy] s]. cbn -[float_gt float_lt].
  intros H1 H2 H3 H4. unfold Model.enforce_bounds.
  cbn -[float_gt float_lt]. rewrite H1. cbn -[float_gt float_lt].
  rewrite H2. cbn -[float_gt float_lt]. rewrite H3. cbn -[float_gt float_lt].
  rewrite H4. reflexivity.
Qed.

(** After [enforce_bounds] none of the four tests fires any more. *)
Lemma enforce_bounds_settled (cell : Cell.t) :
  float_le (MIN_X constants) (MAX_X constants) = true ->
  float_le (MIN_Y constants) (MAX_Y constants) = true ->
  let cell' := Model.enforce_bounds constants cell in
  float_gt (Point.x (Cell.location cell')) (MAX_X constants) = false /\
  float_lt (Point.x (Cell.location cell')) (MIN_X constants) = false /\
  float_gt (Point.y (Cell.location cell')) (MAX_Y constants) = false /\
  float_lt (Point.y (Cell.location cell')) (MIN_Y constants) = false.
Proof.
  intros Hx Hy.
  destruct cell as [[x y] [dx dy] s].
  destruct (float_le_is_number _ _ Hx) as [Nlx Nhx].
  destruct (float_le_is_number _ _ Hy) as [Nly Nhy].
  pose proof (float_le_not_lt _ _ Hx) as Lx.
  pose proof (float_le_not_lt _ _ Hy) as Ly.
  pose proof (float_le_not_gt _ _ Hx) as Gx.
  pose proof (float_le_not_gt _ _ Hy) as Gy.
  pose proof (float_le_not_gt _ _ (float_le_refl _ Nhx)) as Rhx.
  pose proof (float_le_not_gt _ _ (float_le_refl _ Nhy)) as Rhy.
  pose proof (float_le_not_lt _ _ (float_le_refl _ Nlx)) as Rlx.
  pose proof (float_le_not_lt _ _ (float_le_refl _ Nly)) as Rly.
  unfold Model.enforce_bounds. cbn -[float_gt float_lt float_le].
  destruct (float_gt x (MAX_X constants)) eqn:Ex1; cbn -[float_gt float_lt float_le];
    [rewrite Lx | destruct (float_lt x (MIN_X constants)) eqn:Ex2];
    cbn -[float_gt float_lt float_le];
    (destruct (float_gt y (MAX_Y constants)) eqn:Ey1;
     cbn -[float_gt float_lt float_le];
     [rewrite Ly | destruct (float_lt y (MIN_Y constants)) eqn:Ey2];
     cbn -[float_gt float_lt float_le]);
    auto.
Qed.

(** A comparison with NaN is false. *)
Lemma nan_compares_false (a b : float) :
  PrimFloat.is_nan a = true -> float_gt a b = false /\ float_lt a b = false
                               /\ float_le a b = false /\ float_le b a = false.
Proof.
  intros Ha.
  assert (E : Prim2SF a = S754_nan).
  { destruct (Prim2SF a) eqn:E; try reflexivity; exfalso;
      assert (N : is_number a) by (apply is_number_spec; rewrite E; discriminate);
      unfold is_number in N; congruence. }
  unfold float_gt, float_lt, float_le.
  rewrite !FloatAxioms.ltb_spec, !FloatAxioms.leb_spec, E.
  unfold SFltb, SFleb. destruct (Prim2SF b); auto.
Qed.

End MoreBoundsFacts.

(** X7. With lower bounds that do not exceed the upper ones,
    [enforce_bounds] is idempotent: a second call changes nothing,
    whatever the Cell. And a Cell that lies inside the arena is returned
    as it is, velocity included. *)
Theorem enforce_bounds_idempotent (constants : Constants) (cell : Cell.t) :
  float_le (MIN_X constants) (MAX_X constants) = true ->
  float_le (MIN_Y constants) (MAX_Y constants) = true ->
  Model.enforce_bounds constants (Model.enforce_bounds constants cell)
  = Model.enforce_bounds constants cell /\
  (in_arena constants cell = true -> Model.enforce_bounds constants cell = cell).
Proof.
  intros Hx Hy. split.
  - destruct (enforce_bounds_settled constants cell Hx Hy) as (H1 & H2 & H3 & H4).
    apply enforce_bounds_fixed; assumption.
  - unfold in_arena. rewrite !andb_true_iff. intros [[[A1 A2] A3] A4].
    apply enforce_bounds_fixed;
      auto using float_le_not_gt, float_le_not_lt.
Qed.

Lemma enforce_bounds_idempotent_witness :
  float_le (MIN_X sample_constants) (MAX_X sample_constants) = true /\
  float_le (MIN_Y sample_constants) (MAX_Y sample_constants) = true /\
  in_arena sample_constants wanderer = true /\
  Model.enforce_bounds sample_constants
    (Model.enforce_bounds sample_constants escaped)
  = Model.enforce_bounds sample_constants escaped /\
  Model.enforce_bounds sample_constants wanderer = wanderer.
Proof.
  exact (conj eq_refl (conj eq_refl (conj eq_refl
           (conj (proj1 (enforce_bounds_idempotent sample_constants escaped
                           eq_refl eq_refl))
                 (proj2 (enforce_bounds_idempotent sample_constants wanderer
                           eq_refl eq_refl) eq_refl))))).
Defined.

(** X8. [enforce_bounds] does not repair a coordinate that is not a
    number: on an axis whose position is NaN, position and velocity are
    left as they are, and the Cell is not inside the arena after the
    call. *)
Theorem enforce_bounds_keeps_nan (constants : Constants) (cell : Cell.t) :
  let cell' := Model.enforce_bounds constants cell in
  (PrimFloat.is_nan (Point.x (Cell.location cell)) = true ->
   Point.x (Cell.location cell') = Point.x (Cell.location cell) /\
   Point.x (Cell.direction cell') = Point.x (Cell.direction cell) /\
   in_arena constants cell' = false) /\
  (PrimFloat.is_nan (Point.y (Cell.location cell)) = true ->
   Point.y (Cell.location cell') = Point.y (Cell.location cell) /\
   Point.y (Cell.direction cell') = Point.y (Cell.direction cell) /\
   in_arena constants cell' = false).
Proof.
  destruct cell as [[x y] [dx dy] s]. cbn -[Model.enforce_bounds in_arena].
  split; intros Hn.
  - destruct (nan_compares_false x (MAX_X constants) Hn) as (G & _ & _ & _).
    destruct (nan_compares_false x (MIN_X constants) Hn) as (_ & L & _ & Le).
    unfold Model.enforce_bounds, in_arena. cbn -[float_gt float_lt float_le].
    rewrite G. cbn -[float_gt float_lt float_le].
    rewrite L. cbn -[float_gt float_lt float_le].
    destruct (float_gt y (MAX_Y constants)); cbn -[float_gt float_lt float_le];
      destruct (float_lt _ (MIN_Y constants)); cbn -[float_gt float_lt float_le];
      rewrite Le; auto.
  - destruct (nan_compares_false y (MAX_Y constants) Hn) as (G & _ & Le & _).
    destruct (nan_compares_false y (MIN_Y constants) Hn) as (_ & L & _ & _).
    unfold Model.enforce_bounds, in_arena. cbn -[float_gt float_lt float_le].
    destruct (float_gt x (MAX_X constants)); cbn -[float_gt float_lt float_le];
      destruct (float_lt _ (MIN_X constants)); cbn -[float_gt float_lt float_le];
      rewrite G; cbn -[float_gt float_lt float_le];
      rewrite L; cbn -[float_gt float_lt float_le];
      rewrite Le, !andb_false_r; auto.
Qed.

Lemma enforce_bounds_keeps_nan_witness :
  PrimFloat.is_nan (Point.x (Cell.location lost)) = true /\
  Point.x (Cell.direction (Model.enforce_bounds sample_constants lost)) = 1%float /\
  in_arena sample_constants (Model.enforce_bounds sample_constants lost) = false.
Proof.
  pose proof (proj1 (enforce_bounds_keeps_nan sample_constants lost) eq_refl)
    as (_ & Hd & Ha).
  exact (conj eq_refl (conj Hd Ha)).
Defined.

(** ** Cells stay inside the arena *)

Section ArenaFacts.
Context (constants : Constants).

Local Abbreviation advance :=
  (fun cell => Model.enforce_bounds constants (Cell.tick constants cell)).

(** Rounding a non-negative mantissa never yields NaN, so the sum of
    two finite floats is a number (possibly an infinity). *)
Lemma iter_pos_inv {A : Type} (P : A -> Prop) (f : A -> A) :
  (forall x, P x -> P (f x)) ->
  forall p x, P x -> P (SpecFloat.iter_pos f p x).
Proof.
  intros Hf. induction p as [p IH|p IH|]; intros x Hx; cbn; auto.
Qed.

Lemma shr_1_nonneg (r : shr_record) : 0 <= shr_m r -> 0 <= shr_m (shr_1 r).
Proof.
  destruct r as [m r s]. cbn. destruct m as [|p|p]; try lia.
  - cbn. lia.
  - destruct p; cbn; lia.
Qed.

Lemma shr_fexp_nonneg (m e : Z) (l : location) :
  0 <= m -> 0 <= shr_m (fst (shr_fexp prec emax m e l)).
Proof.
  intros Hm. unfold shr_fexp, shr.
  assert (H0 : 0 <= shr_m (shr_record_of_loc m l)).
  { destruct l as [|[]]; cbn; exact Hm. }
  destruct (_ - e); cbn [fst]; auto.
  apply (iter_pos_inv (fun r => 0 <= shr_m r)); auto using shr_1_nonneg.
Qed.

Lemma round_nearest_even_nonneg (m : Z) (l : location) :
  0 <= m -> 0 <= round_nearest_even m l.
Proof.
  intros Hm. destruct l as [|[]]; cbn; try lia.
  destruct (Z.even m); lia.
Qed.

Lemma binary_round_aux_number (s : bool) (m e : Z) (l : location) :
  0 <= m -> binary_round_aux prec emax s m e l <> S754_nan.
Proof.
  intros Hm. unfold binary_round_aux.
  pose proof (shr_fexp_nonneg m e l Hm) as H1.
  destruct (shr_fexp prec emax m e l) as [mrs' e']. cbn [fst] in H1.
  pose proof (shr_fexp_nonneg _ e' loc_Exact
                (round_nearest_even_nonneg _ (loc_of_shr_record mrs') H1)) as H2.
  destruct (shr_fexp prec emax _ e' loc_Exact) as [mrs'' e'']. cbn [fst] in H2.
  destruct (shr_m mrs''); try lia; try discriminate.
  destruct (_ <=? _); discriminate.
Qed.

Lemma binary_normalize_number (m e : Z) :
  binary_normalize prec emax m e false <> S754_nan.
Proof.
  destruct m as [|p|p]; cbn; try discriminate; unfold binary_round;
    destruct (shl_align _ _ _) as [mz ez]; apply binary_round_aux_number; lia.
Qed.

Lemma SF64add_finite_number (a b : spec_float) :
  finite_spec a -> finite_spec b -> SF64add a b <> S754_nan.
Proof.
  destruct a as [sa|sa| |sa ma ea], b as [sb|sb| |sb mb eb]; simpl;
    try contradiction; intros _ _; try discriminate.
  - destruct sa, sb; discriminate.
  - apply binary_normalize_number.
Qed.

Lemma add_finite_number (u v : float) :
  PrimFloat.is_finite u = true -> PrimFloat.is_finite v = true ->
  is_number (PrimFloat.add u v).
Proof.
  rewrite !is_finite_spec, is_number_spec, add_spec.
  apply SF64add_finite_number.
Qed.

Lemma opp_finite (u : float) :
  PrimFloat.is_finite u = true -> PrimFloat.is_finite (PrimFloat.opp u) = true.
Proof.
  rewrite !is_finite_spec, FloatAxioms.opp_spec.
  destruct (Prim2SF u); cbn; auto.
Qed.

(** A float between two finite floats is finite. *)
Lemma finite_between (lo hi a : float) :
  PrimFloat.is_finite lo = true -> PrimFloat.is_finite hi = true ->
  float_le lo a = true -> float_le a hi = true ->
  PrimFloat.is_finite a = true.
Proof.
  rewrite !is_finite_spec. unfold float_le.
  rewrite !FloatAxioms.leb_spec. unfold SFleb.
  destruct (Prim2SF lo) as [sl|sl| |sl ml el]; try contradiction;
    destruct (Prim2SF hi) as [sh|sh| |sh mh eh]; try contradiction;
    destruct (Prim2SF a) as [s|s| |s m e]; cbn; auto;
    try discriminate; destruct s; cbn; try discriminate;
    try destruct sl; try destruct sh; cbn; discriminate.
Qed.

(** What [enforce_bounds] can make of a position and of a velocity. *)
Lemma enforce_bounds_cases (cell : Cell.t) :
  let cell' := Model.enforce_bounds constants cell in
  (Point.x (Cell.location cell') = MAX_X constants \/
   Point.x (Cell.location cell') = MIN_X constants \/
   Point.x (Cell.location cell') = Point.x (Cell.location cell)) /\
  (Point.y (Cell.location cell') = MAX_Y constants \/
   Point.y (Cell.location cell') = MIN_Y constants \/
   Point.y (Cell.location cell') = Point.y (Cell.location cell)) /\
  (Point.x (Cell.direction cell') = Point.x (Cell.direction cell) \/
   Point.x (Cell.direction cell') = PrimFloat.opp (Point.x (Cell.direction cell))) /\
  (Point.y (Cell.direction cell') = Point.y (Cell.direction cell) \/
   Point.y (Cell.direction cell') = PrimFloat.opp (Point.y (Cell.direction cell))).
Proof.
  destruct cell as [[x y] [dx dy] s].
  unfold Model.enforce_bounds. cbn -[float_gt float_lt].
  destruct (float_gt x (MAX_X constants)); cbn -[float_gt float_lt];
    destruct (float_lt _ (MIN_X constants)); cbn -[float_gt float_lt];
    destruct (float_gt y (MAX_Y constants)); cbn -[float_gt float_lt];
    destruct (float_lt _ (MIN_Y constants)); cbn -[float_gt float_lt];
    rewrite ?mul_minus_one, ?opp_opp; auto 10.
Qed.

Section FiniteArena.
Hypothesis x_bounds : float_le (MIN_X constants) (MAX_X constants) = true.
Hypothesis y_bounds : float_le (MIN_Y constants) (MAX_Y constants) = true.
Hypothesis finite_bounds :
  PrimFloat.is_finite (MIN_X constants) = true /\
  PrimFloat.is_finite (MAX_X constants) = true /\
  PrimFloat.is_finite (MIN_Y constants) = true /\
  PrimFloat.is_finite (MAX_Y constants) = true.

(** One movement followed by [enforce_bounds] brings a finite Cell
    into the arena and keeps it finite. *)
Lemma advance_in_arena (c : Cell.t) :
  finite_cell c = true ->
  in_arena constants (advance c) = true /\ finite_cell (advance c) = true.
Proof.
  intros Hc. unfold finite_cell in Hc. rewrite !andb_true_iff in Hc.
  destruct Hc as [[[Fx Fy] Fdx] Fdy].
  destruct finite_bounds as (Flx & Fhx & Fly & Fhy).
  pose proof (add_finite_number _ _ Fx Fdx) as Nx.
  pose proof (add_finite_number _ _ Fy Fdy) as Ny.
  cbv beta. set (moved := Cell.tick constants c).
  assert (Lm : Cell.location moved
               = Point.add (Cell.location c) (Cell.direction c)).
  { unfold moved, Cell.tick. cbn.
    repeat match goal with
           | |- context [if ?b then _ else _] => destruct b; cbn
           end; reflexivity. }
  assert (Dm : Cell.direction moved = Cell.direction c).
  { unfold moved, Cell.tick. cbn.
    repeat match goal with
           | |- context [if ?b then _ else _] => destruct b; cbn
           end; reflexivity. }
  destruct (enforce_bounds_cases moved) as (Cx & Cy & Cdx & Cdy).
  destruct (enforce_bounds_settled constants moved x_bounds y_bounds)
    as (S1 & S2 & S3 & S4).
  rewrite Lm in Cx, Cy. rewrite Dm in Cdx, Cdy. cbn [Point.add Point.x Point.y] in Cx, Cy.
  assert (Nx' : is_number
                  (Point.x (Cell.location (Model.enforce_bounds constants moved)))).
  { destruct Cx as [->|[->| ->]]; auto using is_finite_number. }
  assert (Ny' : is_number
                  (Point.y (Cell.location (Model.enforce_bounds constants moved)))).
  { destruct Cy as [->|[->| ->]]; auto using is_finite_number. }
  assert (A1 := float_not_lt_ge _ _ Nx' (is_finite_number _ Flx) S2).
  assert (A2 := float_not_gt_le _ _ Nx' (is_finite_number _ Fhx) S1).
  assert (A3 := float_not_lt_ge _ _ Ny' (is_finite_number _ Fly) S4).
  assert (A4 := float_not_gt_le _ _ Ny' (is_finite_number _ Fhy) S3).
  split.
  - unfold in_arena. rewrite A1, A2, A3, A4. reflexivity.
  - unfold finite_cell.
    rewrite (finite_between _ _ _ Flx Fhx A1 A2).
    rewrite (finite_between _ _ _ Fly Fhy A3 A4).
    destruct Cdx as [-> | ->], Cdy as [-> | ->];
      rewrite ?opp_finite, ?Fdx, ?Fdy by assumption; reflexivity.
Qed.

Lemma after_contacts_arena (c c' : Cell.t) :
  after_contacts constants c c' ->
  in_arena constants c' = in_arena constants c /\ finite_cell c' = finite_cell c.
Proof.
  intros A. destruct (after_contacts_location constants c c' A) as [L D].
  unfold in_arena, finite_cell. rewrite L, D. auto.
Qed.

Lemma ticks_finite (m : Model.t) (n i : nat) (c : Cell.t) :
  forallb finite_cell (Model.population m) = true ->
  Model.population (ticks constants n m) !! i = Some c ->
  finite_cell c = true.
Proof.
  intros Hall. revert i c. induction n as [|n IH]; intros i c Hi.
  - rewrite forallb_forall in Hall. apply Hall.
    apply list_elem_of_In. eapply list_elem_of_lookup_2. exact Hi.
  - rewrite ticks_S in Hi.
    destruct (tick_lookup_inv constants _ _ _ Hi) as (c0 & H0 & A).
    destruct (after_contacts_arena _ _ A) as [_ ->].
    apply advance_in_arena. eapply IH. exact H0.
Qed.

Lemma ticks_in_arena (m : Model.t) (n i : nat) (c : Cell.t) :
  forallb finite_cell (Model.population m) = true ->
  Model.population (ticks constants (S n) m) !! i = Some c ->
  in_arena constants c = true.
Proof.
  intros Hall Hi. rewrite ticks_S in Hi.
  destruct (tick_lookup_inv constants _ _ _ Hi) as (c0 & H0 & A).
  destruct (after_contacts_arena _ _ A) as [-> _].
  apply advance_in_arena. eapply ticks_finite; eassumption.
Qed.

End FiniteArena.

End ArenaFacts.

(** X9. Cells never leave the arena. With finite bounds, lower ones not
    above upper ones, and a population whose positions and velocities
    are finite, every Cell lies inside the arena after every step of
    [Model.tick], from the first one on, and stays finite. *)
Theorem cells_stay_in_arena (constants : Constants) (m : Model.t)
    (n i : nat) (c : Cell.t) :
  float_le (MIN_X constants) (MAX_X constants) = true ->
  float_le (MIN_Y constants) (MAX_Y constants) = true ->
  PrimFloat.is_finite (MIN_X constants) = true /\
  PrimFloat.is_finite (MAX_X constants) = true /\
  PrimFloat.is_finite (MIN_Y constants) = true /\
  PrimFloat.is_finite (MAX_Y constants) = true ->
  forallb finite_cell (Model.population m) = true ->
  Model.population (ticks constants (S n) m) !! i = Some c ->
  in_arena constants c = true /\ finite_cell c = true.
Proof.
  intros Hx Hy Hf Hall Hi. split.
  - eapply ticks_in_arena; eassumption.
  - eapply ticks_finite; eassumption.
Qed.

Lemma cells_stay_in_arena_witness :
  float_le (MIN_X sample_constants) (MAX_X sample_constants) = true /\
  float_le (MIN_Y sample_constants) (MAX_Y sample_constants) = true /\
  forallb finite_cell [wanderer; escaped] = true /\
  Model.population (ticks sample_constants 40 (Model.mk [wanderer; escaped] 0 1 0))
    !! 0%nat
  = Some (Cell.mk (Point.mk 131%float 160%float)
                  (Point.mk (-3)%float 1.5%float) 41) /\
  in_arena sample_constants
    (Cell.mk (Point.mk 131%float 160%float) (Point.mk (-3)%float 1.5%float) 41)
  = true.
Proof.
  assert (Hi : Model.population
                 (ticks sample_constants 40 (Model.mk [wanderer; escaped] 0 1 0))
                 !! 0%nat
               = Some (Cell.mk (Point.mk 131%float 160%float)
                               (Point.mk (-3)%float 1.5%float) 41))
    by (vm_compute; reflexivity).
  exact (conj eq_refl (conj eq_refl (conj eq_refl (conj Hi
           (proj1 (cells_stay_in_arena sample_constants
                     (Model.mk [wanderer; escaped] 0 1 0) 39 0 _
                     eq_refl eq_refl
                     (conj eq_refl (conj eq_refl (conj eq_refl eq_refl)))
                     eq_refl Hi)))))).
Defined.

(** ** Steps of the Model: what is kept, and how an outbreak ends *)

Section StepFacts.
Context (constants : Constants).

Local Abbreviation advance :=
  (fun cell => Model.enforce_bounds constants (Cell.tick constants cell)).
Local Abbreviation moved c :=
  (Model.enforce_bounds constants (Cell.tick constants c)).

Lemma tick_length (m : Model.t) :
  length (Model.population (Model.tick constants m))
  = length (Model.population m).
Proof. rewrite tick_population, contacts_pass_length, length_map. reflexivity. Qed.

Lemma ticks_length (n : nat) (m : Model.t) :
  length (Model.population (ticks constants n m)) = length (Model.population m).
Proof.
  induction n as [|n IH]; [reflexivity|]. rewrite ticks_S, tick_length. exact IH.
Qed.

Lemma ticks_parameters (n : nat) (m : Model.t) :
  Model.initial_infections (ticks constants n m) = Model.initial_infections m /\
  Model.initial_immunities (ticks constants n m) = Model.initial_immunities m.
Proof.
  induction n as [|n [IH1 IH2]]; [split; reflexivity|].
  rewrite ticks_S. split; [rewrite <- IH1 | rewrite <- IH2]; reflexivity.
Qed.

(** Without a vulnerable Cell no contact has any effect. *)
Lemma contact_safe (population : list Cell.t) (i j : nat) :
  Forall (fun c => Cell.is_vulnerable constants c = false) population ->
  Model.contact constants population i j = population.
Proof.
  intros Hall. unfold Model.contact.
  destruct (population !! i) as [one|] eqn:Hi; [|reflexivity].
  destruct (population !! j) as [two|] eqn:Hj; [|reflexivity].
  cbv zeta. destruct (float_le _ _); [|reflexivity].
  rewrite contact_with_idle.
  - rewrite (list_insert_id _ i one Hi). apply list_insert_id. exact Hj.
  - rewrite (Forall_lookup_1 _ _ _ _ Hall Hi), (Forall_lookup_1 _ _ _ _ Hall Hj).
    rewrite andb_false_r. reflexivity.
Qed.

Lemma contacts_pass_safe (population : list Cell.t) :
  Forall (fun c => Cell.is_vulnerable constants c = false) population ->
  Model.contacts_pass constants population = population.
Proof.
  intros Hall. rewrite contacts_pass_pairs.
  induction (population_order (length population)) as [|p ps IH]; [reflexivity|].
  rewrite check_pairs_cons, contact_safe by assumption. exact IH.
Qed.

Lemma contacts_pass_idle (population : list Cell.t) :
  Forall (fun c => Cell.is_infected constants c = false) population ->
  Model.contacts_pass constants population = population.
Proof. intros Hall. rewrite contacts_pass_pairs. apply check_pairs_idle. exact Hall. Qed.

Section ImmuneBelow.
Hypothesis immune_below : IMMUNE constants < INFECTED constants.

(** The health value after one step of a Cell no contact touches. *)
Lemma sickness_advance_cases (c : Cell.t) :
  Cell.sickness (moved c)
  = if Cell.sickness c >=? 90 then IMMUNE constants
    else if Cell.is_infected constants c then Cell.sickness c + 1
    else Cell.sickness c.
Proof.
  rewrite enforce_bounds_sickness.
  destruct (Z.geb_spec (Cell.sickness c) 90) as [G|L].
  - rewrite sickness_tick_ceiling by assumption.
    destruct (Z.geb_spec (IMMUNE constants) (INFECTED constants)); [lia|reflexivity].
  - apply sickness_tick_below. exact L.
Qed.

Lemma advance_not_infected (c : Cell.t) :
  Cell.is_infected constants c = false ->
  Cell.is_infected constants (moved c) = false.
Proof.
  intros Hc. apply is_infected_false. rewrite sickness_advance_cases, Hc.
  apply is_infected_false in Hc.
  destruct (Cell.sickness c >=? 90); lia.
Qed.

(** Once nobody is infected, a step infects nobody. *)
Lemma tick_complete (m : Model.t) :
  Model.is_complete constants m = true ->
  Model.is_complete constants (Model.tick constants m) = true.
Proof.
  rewrite !is_complete_forallb, !forallb_forall. intros Hall.
  assert (Hmap : Forall (fun c => Cell.is_infected constants c = false)
                        (map advance (Model.population m))).
  { apply Forall_forall. intros c Hc. apply list_elem_of_In in Hc.
    apply in_map_iff in Hc as (c0 & <- & Hc0). cbv beta.
    apply advance_not_infected. apply negb_true_iff. auto. }
  rewrite tick_population, (contacts_pass_idle _ Hmap).
  intros c Hc. apply negb_true_iff.
  rewrite Forall_forall in Hmap. apply Hmap. apply list_elem_of_In. exact Hc.
Qed.

Lemma ticks_complete (n : nat) (m : Model.t) :
  Model.is_complete constants m = true ->
  Model.is_complete constants (ticks constants n m) = true.
Proof.
  intros H. induction n as [|n IH]; [exact H|].
  rewrite ticks_S. apply tick_complete. exact IH.
Qed.

Section NobodyLeft.
Hypothesis vulnerable_below : VULNERABLE constants < INFECTED constants.
Hypothesis immune_apart : IMMUNE constants <> VULNERABLE constants.

Lemma advance_settling (k : nat) (c : Cell.t) :
  settling constants k c -> settling constants (k - 1) (moved c).
Proof.
  unfold settling, steps_to_immune. intros [Hv Hk].
  apply is_vulnerable_false in Hv.
  pose proof (sickness_advance_cases c) as E.
  destruct (Cell.is_infected constants c) eqn:Hi.
  - apply is_infected_spec in Hi.
    destruct (Z.geb_spec (Cell.sickness c) 90) as [G|L].
    + split; [apply is_vulnerable_false; lia|].
      rewrite (proj2 (is_infected_false constants (moved c))) by lia. lia.
    + split; [apply is_vulnerable_false; lia|].
      rewrite (proj2 (is_infected_spec constants (moved c))) by lia.
      rewrite E. lia.
  - apply is_infected_false in Hi.
    assert (Hi' : Cell.sickness (moved c) < INFECTED constants)
      by (rewrite E; destruct (Cell.sickness c >=? 90); lia).
    split.
    + apply is_vulnerable_false. rewrite E.
      destruct (Cell.sickness c >=? 90); lia.
    + rewrite (proj2 (is_infected_false constants (moved c))) by exact Hi'. lia.
Qed.

Lemma tick_settling (k : nat) (m : Model.t) :
  Forall (settling constants k) (Model.population m) ->
  Forall (settling constants (k - 1)) (Model.population (Model.tick constants m)).
Proof.
  intros Hall.
  assert (Hmap : Forall (settling constants (k - 1)) (map advance (Model.population m))).
  { apply Forall_forall. intros c Hc. apply list_elem_of_In in Hc.
    apply in_map_iff in Hc as (c0 & <- & Hc0). cbv beta.
    apply advance_settling. rewrite Forall_forall in Hall.
    apply Hall. apply list_elem_of_In. exact Hc0. }
  rewrite tick_population, contacts_pass_safe; [exact Hmap|].
  eapply Forall_impl; [exact Hmap|]. intros c [Hv _]. exact Hv.
Qed.

Lemma ticks_settling (n k : nat) (m : Model.t) :
  Forall (settling constants k) (Model.population m) ->
  Forall (settling constants (k - n)) (Model.population (ticks constants n m)).
Proof.
  intros Hall. induction n as [|n IH].
  - rewrite Nat.sub_0_r. exact Hall.
  - rewrite ticks_S. replace (k - S n)%nat with (k - n - 1)%nat by lia.
    apply tick_settling. exact IH.
Qed.

Lemma no_vulnerable_complete (n : nat) (m : Model.t) :
  forallb (fun c => negb (Cell.is_vulnerable constants c)) (Model.population m)
  = true ->
  (Z.to_nat (90 - INFECTED constants) + 1 <= n)%nat ->
  Model.is_complete constants (ticks constants n m) = true.
Proof.
  intros Hall Hn. rewrite forallb_forall in Hall.
  set (k := (Z.to_nat (90 - INFECTED constants) + 1)%nat) in *.
  assert (H0 : Forall (settling constants k) (Model.population m)).
  { apply Forall_forall. intros c Hc. apply list_elem_of_In in Hc. split.
    - apply negb_true_iff. auto.
    - unfold steps_to_immune. destruct (Cell.is_infected constants c) eqn:Hi;
        [|lia]. apply is_infected_spec in Hi. unfold k. lia. }
  pose proof (ticks_settling n k m H0) as Hn'.
  replace (k - n)%nat with 0%nat in Hn' by lia.
  rewrite is_complete_forallb, forallb_forall. intros c Hc.
  rewrite Forall_forall in Hn'. apply list_elem_of_In in Hc.
  destruct (Hn' c Hc) as [_ Hs]. unfold steps_to_immune in Hs.
  destruct (Cell.is_infected constants c); [lia | reflexivity].
Qed.

End NobodyLeft.

End ImmuneBelow.

End StepFacts.

(** X10. [Model.tick] keeps the size of the population and the two
    construction parameters stored in the Model, over any number of
    steps. *)
Theorem tick_keeps_population_size (constants : Constants) (m : Model.t)
    (n : nat) :
  length (Model.population (ticks constants n m)) = length (Model.population m) /\
  Model.initial_infections (ticks constants n m) = Model.initial_infections m /\
  Model.initial_immunities (ticks constants n m) = Model.initial_immunities m.
Proof.
  split; [apply ticks_length | apply ticks_parameters].
Qed.

(** X11. Completion is final: with the immune value below the infection
    threshold, a Model in which [is_complete] holds is still complete
    after any number of steps. *)
Theorem complete_is_absorbing (constants : Constants) (m : Model.t) (n : nat) :
  IMMUNE constants < INFECTED constants ->
  Model.is_complete constants m = true ->
  Model.is_complete constants (ticks constants n m) = true.
Proof. intros HM H. apply ticks_complete; assumption. Qed.

Lemma complete_is_absorbing_witness :
  IMMUNE sample_constants < INFECTED sample_constants /\
  Model.is_complete sample_constants
    (Model.mk [cell_at 0%float 0; cell_at 5%float (-1)] 0 1 1) = true /\
  Model.is_complete sample_constants
    (ticks sample_constants 200
       (Model.mk [cell_at 0%float 0; cell_at 5%float (-1)] 0 1 1)) = true.
Proof.
  assert (H : IMMUNE sample_constants < INFECTED sample_constants) by reflexivity.
  exact (conj H (conj eq_refl
           (complete_is_absorbing sample_constants
              (Model.mk [cell_at 0%float 0; cell_at 5%float (-1)] 0 1 1)
              200 H eq_refl))).
Defined.

(** X12. An outbreak with nobody left to infect burns out. With the
    vulnerable and the immune value below the infection threshold and
    distinct, a Model without a vulnerable Cell is complete after
    [90 - INFECTED + 1] steps (one step when [INFECTED] exceeds 90), and
    after any larger number of steps. *)
Theorem outbreak_burns_out (constants : Constants) (m : Model.t) (n : nat) :
  VULNERABLE constants < INFECTED constants ->
  IMMUNE constants < INFECTED constants ->
  IMMUNE constants <> VULNERABLE constants ->
  forallb (fun c => negb (Cell.is_vulnerable constants c)) (Model.population m)
  = true ->
  (Z.to_nat (90 - INFECTED constants) + 1 <= n)%nat ->
  Model.is_complete constants (ticks constants n m) = true.
Proof.
  intros HV HM HMV Hall Hn. apply no_vulnerable_complete; assumption.
Qed.

Lemma outbreak_burns_out_witness :
  VULNERABLE sample_constants < INFECTED sample_constants /\
  IMMUNE sample_constants < INFECTED sample_constants /\
  IMMUNE sample_constants <> VULNERABLE sample_constants /\
  Model.is_complete sample_constants burning_out = false /\
  Model.is_complete sample_constants (ticks sample_constants 90 burning_out) = true.
Proof.
  assert (H1 : VULNERABLE sample_constants < INFECTED sample_constants)
    by reflexivity.
  assert (H2 : IMMUNE sample_constants < INFECTED sample_constants)
    by reflexivity.
  assert (H3 : IMMUNE sample_constants <> VULNERABLE sample_constants)
    by discriminate.
  assert (Hn : (Z.to_nat (90 - INFECTED sample_constants) + 1 <= 90)%nat)
    by (apply le_n).
  exact (conj H1 (conj H2 (conj H3 (conj eq_refl
           (outbreak_burns_out sample_constants burning_out 90
              H1 H2 H3 eq_refl Hn))))).
Defined.

(** ** More on [Model.__init__] *)

Section MoreInitFacts.
Context (constants : Constants) (env : Env).

(** One round of the creation loop: three draws, one Cell appended. *)
Lemma create_cells_S (speed : float) (n : nat) (population : list Cell.t)
    (seed : nat) :
  Model.create_cells constants env speed (S n) population seed
  = Model.create_cells constants env speed n
      (population ++ [Cell.init constants (drawn_location constants env seed 0)
                                (drawn_direction env speed seed 0)])
      (seed + 3)%nat.
Proof.
  unfold drawn_location, drawn_direction.
  replace (seed + 3 * 0)%nat with seed by lia.
  replace (seed + 1)%nat with (S seed) by lia.
  replace (seed + 2)%nat with (S (S seed)) by lia.
  replace (seed + 3)%nat with (S (S (S seed))) by lia.
  reflexivity.
Qed.

Lemma drawn_shift (speed : float) (seed k : nat) :
  drawn_location constants env (seed + 3) k
  = drawn_location constants env seed (S k) /\
  drawn_direction env speed (seed + 3) k = drawn_direction env speed seed (S k).
Proof.
  unfold drawn_location, drawn_direction.
  replace (seed + 3 + 3 * k)%nat with (seed + 3 * S k)%nat by lia. auto.
Qed.

Lemma create_cells_lookup (speed : float) (n : nat) (population : list Cell.t)
    (seed k : nat) :
  (k < n)%nat ->
  fst (Model.create_cells constants env speed n population seed)
    !! (length population + k)%nat
  = Some (Cell.init constants (drawn_location constants env seed k)
                    (drawn_direction env speed seed k)).
Proof.
  revert population seed k. induction n as [|n IH]; intros population seed k Hk;
    [lia|].
  rewrite create_cells_S. destruct k as [|k].
  - destruct (create_cells_spec constants env speed n
                (population ++ [Cell.init constants
                                  (drawn_location constants env seed 0)
                                  (drawn_direction env speed seed 0)])
                (seed + 3)%nat) as (news & -> & _ & _).
    rewrite Nat.add_0_r, <- app_assoc. rewrite lookup_app_r by lia.
    rewrite Nat.sub_diag. reflexivity.
  - destruct (drawn_shift speed seed k) as [<- <-].
    replace (length population + S k)%nat
      with (length (population ++ [Cell.init constants
                                     (drawn_location constants env seed 0)
                                     (drawn_direction env speed seed 0)]) + k)%nat
      by (rewrite length_app; cbn; lia).
    apply IH. lia.
Qed.

(** The two loops that follow change [sickness] only. *)
Lemma alter_loop_place (f : Cell.t -> Cell.t) (indices : list nat)
    (population : list Cell.t) (k : nat) (c : Cell.t) :
  (forall d, Cell.location (f d) = Cell.location d
             /\ Cell.direction (f d) = Cell.direction d) ->
  fold_left (fun population i => alter f i population) indices population !! k
  = Some c ->
  exists c0, population !! k = Some c0
             /\ Cell.location c = Cell.location c0
             /\ Cell.direction c = Cell.direction c0.
Proof.
  intros Hf. revert population c.
  induction indices as [|i l IH]; intros population c Hk.
  - exists c. auto.
  - cbn [fold_left] in Hk. destruct (IH _ _ Hk) as (c1 & H1 & L1 & D1).
    rewrite list_lookup_alter in H1. destruct (decide (i = k)) as [->|N].
    + destruct (population !! k) as [c0|]; [|discriminate].
      injection H1 as <-. exists c0. destruct (Hf c0) as [L D].
      split; [reflexivity|]. split; congruence.
    + exists c1. auto.
Qed.

Lemma init_places (seed : nat) (cells : Z) (speed : float) (inf imm : Z)
    (m : Model.t) (k : nat) (c : Cell.t) :
  Model.init constants env seed cells speed inf imm = Return m ->
  Model.population m !! k = Some c ->
  Cell.location c = drawn_location constants env seed k /\
  Cell.direction c = drawn_direction env speed seed k.
Proof.
  intros E Hk.
  destruct (init_population constants env _ _ _ _ _ _ E) as (_ & _ & _ & Hl & _).
  pose proof (lookup_lt_Some _ _ _ Hk) as Lk. rewrite Hl in Lk.
  unfold Model.init in E.
  destruct (inf <=? 0); [discriminate|].
  destruct (imm <? 0); [discriminate|].
  destruct (inf + imm >=? cells); [discriminate|].
  injection E as <-. cbn [Model.population] in Hk.
  destruct (alter_loop_place (Cell.immunize constants) _ _ _ _
              (fun d => conj eq_refl eq_refl) Hk) as (c1 & H1 & L1 & D1).
  destruct (alter_loop_place (Cell.contract_disease constants) _ _ _ _
              (fun d => conj eq_refl eq_refl) H1) as (c0 & H0 & L0 & D0).
  pose proof (create_cells_lookup speed (Z.to_nat cells) [] seed k Lk) as Hc.
  cbn [length Nat.add] in Hc. rewrite Hc in H0. injection H0 as <-.
  cbn [Cell.init Cell.location Cell.direction] in L0, D0.
  split; congruence.
Qed.

End MoreInitFacts.

(** X13. A Model that the constructor returns is not complete: its
    first Cell is at the infection start value, so it is infected. It
    also holds at least two Cells, and the last one is at the vulnerable
    value. *)
Theorem constructed_model_not_complete (constants : Constants) (env : Env)
    (seed : nat) (cells : Z) (speed : float)
    (initial_infections initial_immunities : Z) (m : Model.t) :
  Model.init constants env seed cells speed initial_infections
    initial_immunities = Return m ->
  Model.is_complete constants m = false /\
  (2 <= length (Model.population m))%nat /\
  (exists c, Model.population m !! 0%nat = Some c
             /\ Cell.sickness c = INFECTED constants) /\
  (exists c, Model.population m !! (length (Model.population m) - 1)%nat = Some c
             /\ Cell.sickness c = VULNERABLE constants).
Proof.
  intros E.
  destruct (init_inv constants env _ _ _ _ _ _ E) as (H1 & H2 & H3).
  destruct (init_population constants env _ _ _ _ _ _ E) as (_ & _ & _ & Hl & Hs).
  assert (Hlen : (2 <= length (Model.population m))%nat) by lia.
  destruct (lookup_lt_is_Some_2 (Model.population m) 0) as [c0 Hc0]; [lia|].
  destruct (lookup_lt_is_Some_2 (Model.population m)
              (length (Model.population m) - 1)) as [c1 Hc1]; [lia|].
  pose proof (Hs _ _ Hc0) as S0. pose proof (Hs _ _ Hc1) as S1.
  destruct (Z.ltb_spec (Z.of_nat 0) initial_infections); [|lia].
  destruct (Z.ltb_spec (Z.of_nat (length (Model.population m) - 1))
              initial_infections); [lia|].
  destruct (Z.ltb_spec (Z.of_nat (length (Model.population m) - 1))
              (initial_infections + initial_immunities)); [lia|].
  split; [|split; [exact Hlen | split; eauto]].
  rewrite is_complete_forallb. apply not_true_iff_false. intros Hall.
  rewrite forallb_forall in Hall.
  assert (Hin : In c0 (Model.population m)).
  { apply list_elem_of_In. eapply list_elem_of_lookup_2. exact Hc0. }
  specialize (Hall c0 Hin). apply negb_true_iff, is_infected_false in Hall. lia.
Qed.

Lemma constructed_model_not_complete_witness :
  exists m : Model.t,
    Model.init sample_constants sample_env 0 4 0%float 1 2 = Return m /\
    Model.is_complete sample_constants m = false.
Proof.
  destruct (Model.init sample_constants sample_env 0 4 0%float 1 2)
    as [m|e] eqn:E.
  - exists m.
    exact (conj eq_refl
             (proj1 (constructed_model_not_complete sample_constants sample_env
                       0 4 0%float 1 2 m E))).
  - vm_compute in E. discriminate E.
Defined.

(** X14. The constructor makes three draws per Cell, in creation order:
    the [k]-th Cell is placed at [(r1 * BOUNDS_WIDTH - MAX_X, r2 *
    BOUNDS_HEIGHT - MAX_Y)] and given the velocity [(cos a * speed, sin a
    * speed)] with [a = 2.0 * pi * r3], where [r1], [r2], [r3] are the
    draws number [3k], [3k + 1] and [3k + 2]; infecting and immunizing
    the first Cells moves none of them. *)
Theorem init_places_cells (constants : Constants) (env : Env)
    (seed : nat) (cells : Z) (speed : float)
    (initial_infections initial_immunities : Z) (m : Model.t)
    (k : nat) (c : Cell.t) :
  Model.init constants env seed cells speed initial_infections
    initial_immunities = Return m ->
  Model.population m !! k = Some c ->
  Cell.location c = drawn_location constants env seed k /\
  Cell.direction c = drawn_direction env speed seed k.
Proof. apply init_places. Qed.

Lemma init_places_cells_witness :
  exists (m : Model.t) (c : Cell.t),
    Model.init sample_constants sample_env 0 4 2%float 1 2 = Return m /\
    Model.population m !! 1%nat = Some c /\
    Cell.location c = Point.mk (-150)%float 0%float /\
    Cell.direction c = Point.mk 2%float 0%float.
Proof.
  destruct (Model.init sample_constants sample_env 0 4 2%float 1 2)
    as [m|e] eqn:E; [|vm_compute in E; discriminate E].
  destruct (Model.population m !! 1%nat) as [c|] eqn:Hc.
  - exists m, c.
    exact (conj eq_refl (conj Hc
             (init_places_cells sample_constants sample_env 0 4 2%float 1 2
                m 1 c E Hc))).
  - exfalso. injection E as <-. vm_compute in Hc. discriminate Hc.
Defined.

(** ** Infections over the steps *)

Section CountFacts.
Context (constants : Constants).

(** Two populations of the same size, compared Cell by Cell. *)
Lemma count_cells_le (p q : Cell.t -> bool) (l l' : list Cell.t) :
  length l = length l' ->
  (forall (i : nat) (a b : Cell.t),
     l !! i = Some a -> l' !! i = Some b -> p a = true -> q b = true) ->
  (count_cells p l <= count_cells q l')%nat.
Proof.
  unfold count_cells. revert l'.
  induction l as [|a l IH]; intros [|b l'] Hlen H; try discriminate; [cbn; lia|].
  cbn [List.filter].
  assert (IH' : (length (List.filter p l) <= length (List.filter q l'))%nat).
  { apply IH; [cbn in Hlen; lia|].
    intros i x y Hx Hy. apply (H (S i) x y); assumption. }
  pose proof (H 0%nat a b eq_refl eq_refl) as H0.
  destruct (p a) eqn:Pa, (q b) eqn:Qb; cbn [length]; try lia;
    specialize (H0 eq_refl); discriminate.
Qed.

Lemma tier_vulnerable (c : Cell.t) :
  tier constants c = Vulnerable <-> Cell.is_vulnerable constants c = true.
Proof.
  unfold tier. destruct (Cell.is_vulnerable constants c); [tauto|].
  destruct (Cell.is_immune constants c); split; discriminate.
Qed.

End CountFacts.



(** X16. Over any number of steps the number of vulnerable Cells never
    grows and the number of immune Cells never shrinks, when the
    vulnerable and the immune value lie below the infection threshold
    and differ. *)
Theorem vulnerable_count_never_grows (constants : Constants) (m : Model.t)
    (n : nat) :
  VULNERABLE constants < INFECTED constants ->
  IMMUNE constants < INFECTED constants ->
  IMMUNE constants <> VULNERABLE constants ->
  (count_cells (Cell.is_vulnerable constants)
     (Model.population (ticks constants n m))
   <= count_cells (Cell.is_vulnerable constants) (Model.population m))%nat /\
  (count_cells (Cell.is_immune constants) (Model.population m)
   <= count_cells (Cell.is_immune constants)
        (Model.population (ticks constants n m)))%nat.
Proof.
  intros HV HM HMV. split.
  - apply count_cells_le; [apply ticks_length|].
    intros i c' c Hc' Hc Hv.
    destruct (tier_model_ticks constants HV HM HMV m n i c Hc)
      as (c2 & H2 & T & _).
    rewrite Hc' in H2. injection H2 as <-.
    apply tier_vulnerable in Hv. rewrite Hv in T. cbn in T.
    apply tier_vulnerable. destruct (tier constants c); cbn in T; [reflexivity|lia..].
  - apply count_cells_le; [symmetry; apply ticks_length|].
    intros i c c' Hc Hc' Him.
    destruct (tier_model_ticks constants HV HM HMV m n i c Hc)
      as (c2 & H2 & _ & Hs).
    rewrite Hc' in H2. injection H2 as <-.
    apply is_immune_spec. rewrite (Hs Him). apply is_immune_spec. exact Him.
Qed.

Lemma vulnerable_count_never_grows_witness :
  VULNERABLE sample_constants < INFECTED sample_constants /\
  IMMUNE sample_constants < INFECTED sample_constants /\
  IMMUNE sample_constants <> VULNERABLE sample_constants /\
  (count_cells (Cell.is_vulnerable sample_constants)
     (Model.population (ticks sample_constants 3 (Model.mk chain 0 1 0)))
   <= count_cells (Cell.is_vulnerable sample_constants) chain)%nat.
Proof.
  assert (H1 : VULNERABLE sample_constants < INFECTED sample_constants)
    by reflexivity.
  assert (H2 : IMMUNE sample_constants < INFECTED sample_constants)
    by reflexivity.
  assert (H3 : IMMUNE sample_constants <> VULNERABLE sample_constants)
    by discriminate.
  exact (conj H1 (conj H2 (conj H3
           (proj1 (vulnerable_count_never_grows sample_constants
                     (Model.mk chain 0 1 0) 3 H1 H2 H3))))).
Defined.
